(** * The response parser and text extractor of backend/main.py

    A shallow embedding of [extract_text_from_file], of the section parser
    and of the risk-score step of [gemini_explain].

    Python's [str] is a sequence of code points.  This development covers
    the code points U+0000..U+00FF, which the type [ascii] holds exactly
    (Latin-1); on that range the character tables of the Python runtime
    ([str.isspace] and the regex class [\s], the class [\d], [str.lower],
    the line boundaries of [str.splitlines]) are the ones written below. *)

From Equations Require Import Equations.
From Equations.Prop Require Import Logic.
From Stdlib Require Import String Ascii Bool Arith NArith ZArith Lia List.
Import ListNotations.

(** ** Text *)

Module Text.

Definition str := list ascii.

(** A literal of the source, as a list of code points. *)
Definition L (s : string) : str := list_ascii_of_string s.

Definition code (c : ascii) : N := N_of_ascii c.

Definition between (lo hi : N) (c : ascii) : bool :=
  (N.leb lo (code c) && N.leb (code c) hi)%bool.

(** [str.isspace] for one code point, which is also the regex class [\s]:
    TAB..CR, FS..US, the space, NEL and the no-break space. *)
Definition isspace (c : ascii) : bool :=
  between 9 13 c || between 28 32 c || N.eqb (code c) 133 || N.eqb (code c) 160.

(** The regex class [\d]: the decimal digits. *)
Definition isdecimal (c : ascii) : bool := between 48 57 c.

(** The line boundaries of [str.splitlines]: LF, VT, FF, CR, FS, GS, RS, NEL. *)
Definition islinebreak (c : ascii) : bool :=
  between 10 13 c || between 28 30 c || N.eqb (code c) 133.

(** [str.lower] on one code point: A..Z and the capital letters
    U+00C0..U+00DE (the multiplication sign U+00D7 apart) move up by 32. *)
Definition lower_char (c : ascii) : ascii :=
  if between 65 90 c || (between 192 222 c && negb (N.eqb (code c) 215))
  then ascii_of_N (code c + 32) else c.

Definition lower (s : str) : str := map lower_char s.

(** [s.lstrip], [s.rstrip] and [s.strip] for a set of characters given by
    its membership test. *)
Fixpoint lstrip_with (p : ascii -> bool) (s : str) : str :=
  match s with
  | c :: s' => if p c then lstrip_with p s' else s
  | [] => []
  end.

Definition rstrip_with (p : ascii -> bool) (s : str) : str :=
  rev (lstrip_with p (rev s)).

Definition strip_with (p : ascii -> bool) (s : str) : str :=
  rstrip_with p (lstrip_with p s).

(** [s.strip()] *)
Definition strip (s : str) : str := strip_with isspace s.

Definition mem (chars : str) (c : ascii) : bool :=
  existsb (Ascii.eqb c) chars.

(** [s.strip(chars)] *)
Definition strip_chars (chars s : str) : str := strip_with (mem chars) s.

(** [s.startswith(w)] *)
Fixpoint startswith (s w : str) {struct w} : bool :=
  match w with
  | [] => true
  | a :: w' =>
      match s with
      | c :: s' => Ascii.eqb c a && startswith s' w'
      | [] => false
      end
  end.

(** [s.endswith(w)] *)
Definition endswith (s w : str) : bool := startswith (rev s) (rev w).

(** [w in s] *)
Fixpoint contains (w s : str) : bool :=
  startswith s w ||
  match s with
  | _ :: s' => contains w s'
  | [] => false
  end.

(** [s.splitlines()]: [line] is the line read so far, [after_cr] tells
    that the last character was a carriage return, whose line feed, if
    one follows, belongs to the same boundary. *)
Fixpoint splitlines_from (after_cr : bool) (line s : str) : list str :=
  match s with
  | [] => match line with [] => [] | _ => [line] end
  | c :: s' =>
      if after_cr && Ascii.eqb c "010" then splitlines_from false line s'
      else if islinebreak c then line :: splitlines_from (Ascii.eqb c "013") [] s'
      else splitlines_from false (line ++ [c]) s'
  end.

Definition splitlines (s : str) : list str := splitlines_from false [] s.

End Text.

Import Text.

(** ** The heading pattern *)

Module Regex.

(** A backtracking matcher in continuation style, as [re] runs it: a
    matcher takes the text at the current position and a continuation for
    the rest of the pattern; [None] makes the caller try its next
    alternative. *)
Section Matchers.
Context {R : Type}.

(** A literal. *)
Fixpoint lit (w s : str) (k : str -> option R) : option R :=
  match w with
  | [] => k s
  | a :: w' =>
      match s with
      | c :: s' => if Ascii.eqb c a then lit w' s' k else None
      | [] => None
      end
  end.

(** A greedy [p*]: the longest run first, then one character less at a
    time while the continuation fails.  [taken] is what the repetition
    holds already. *)
Fixpoint star (p : ascii -> bool) (taken s : str)
    (k : str -> str -> option R) : option R :=
  match s with
  | c :: s' =>
      if p c then
        match star p (taken ++ [c]) s' k with
        | Some r => Some r
        | None => k taken s
        end
      else k taken s
  | [] => k taken s
  end.

(** A greedy [p+]. *)
Definition plus (p : ascii -> bool) (s : str)
    (k : str -> str -> option R) : option R :=
  match s with
  | c :: s' => if p c then star p [c] s' k else None
  | [] => None
  end.
End Matchers.

Definition not_asterisk (c : ascii) : bool := negb (Ascii.eqb c "*").

(** [\*\*\d+\.\s*([^\*]+):\*\*] matched at the start of [s]: the text of
    group 1 and the text after the match. *)
Definition match_heading (s : str) : option (str * str) :=
  lit (L "**") s (fun s1 =>
  plus isdecimal s1 (fun _ s2 =>
  lit (L ".") s2 (fun s3 =>
  star isspace [] s3 (fun _ s4 =>
  plus not_asterisk s4 (fun label s5 =>
  lit (L ":**") s5 (fun rest =>
  Some (label, rest))))))).

End Regex.

Import Regex.

(** ** Segmentation: [re.split] on the heading pattern *)

Module Split.

(** *** Termination of the scan: a match is not empty *)

Lemma lit_inv {R} (w s : str) (k : str -> option R) r :
  lit w s k = Some r -> exists s', s = w ++ s' /\ k s' = Some r.
Proof.
  revert s; induction w as [|a w IH]; intros s H; simpl in H.
  - exists s; auto.
  - destruct s as [|c s]; [discriminate|].
    destruct (Ascii.eqb c a) eqn:E; [|discriminate].
    apply Ascii.eqb_eq in E; subst c.
    destruct (IH _ H) as (s' & -> & Hk). exists s'; auto.
Qed.

Lemma star_inv {R} p (taken s : str) (k : str -> str -> option R) r :
  star p taken s k = Some r ->
  exists run rest, s = run ++ rest /\ forallb p run = true /\
                   k (taken ++ run) rest = Some r.
Proof.
  revert taken; induction s as [|c s IH]; intros taken H; simpl in H.
  - exists [], []. rewrite (app_nil_r taken). repeat split; auto.
  - destruct (p c) eqn:Hp.
    + destruct (star p (taken ++ [c]) s k) eqn:Hs.
      * injection H as <-. destruct (IH _ Hs) as (run & rest & -> & Hrun & Hk).
        exists (c :: run), rest. simpl. rewrite Hp, Hrun.
        rewrite <- app_assoc in Hk. repeat split; auto.
      * exists [], (c :: s). rewrite (app_nil_r taken). repeat split; auto.
    + exists [], (c :: s). rewrite (app_nil_r taken). repeat split; auto.
Qed.

Lemma plus_inv {R} p (s : str) (k : str -> str -> option R) r :
  plus p s k = Some r ->
  exists run rest, s = run ++ rest /\ run <> [] /\ forallb p run = true /\
                   k run rest = Some r.
Proof.
  unfold plus. destruct s as [|c s]; [discriminate|].
  destruct (p c) eqn:Hp; [|discriminate]. intros H.
  destruct (star_inv _ _ _ _ _ H) as (run & rest & -> & Hrun & Hk).
  exists (c :: run), rest. simpl. rewrite Hp, Hrun. repeat split; auto.
  discriminate.
Qed.

(** The shape of a match: two asterisks, digits, a period, whitespace,
    the label, a colon and two asterisks. *)
Lemma match_heading_inv s label rest :
  match_heading s = Some (label, rest) ->
  exists digits spaces,
    s = L "**" ++ digits ++ L "." ++ spaces ++ label ++ L ":**" ++ rest /\
    digits <> [] /\ forallb isdecimal digits = true /\
    forallb isspace spaces = true /\
    label <> [] /\ forallb not_asterisk label = true.
Proof.
  unfold match_heading. intros H.
  apply lit_inv in H. destruct H as (s1 & -> & H).
  apply plus_inv in H. destruct H as (ds & s2 & -> & Hds & Hdd & H).
  apply lit_inv in H. destruct H as (s3 & -> & H).
  apply star_inv in H. destruct H as (ws & s4 & -> & Hws & H).
  apply plus_inv in H. destruct H as (lb & s5 & -> & Hlb & Hll & H).
  apply lit_inv in H. destruct H as (s6 & -> & H).
  injection H as <- <-. exists ds, ws. repeat split; auto.
Qed.

Lemma match_heading_shorter s label rest :
  match_heading s = Some (label, rest) -> length rest < length s.
Proof.
  intros H. destruct (match_heading_inv _ _ _ H) as (ds & ws & -> & _).
  repeat (rewrite length_app; simpl). lia.
Qed.

(** [re.split(pattern, s)] scanning from left to right: [piece] is the
    text passed since the last match.  At a match the piece and the
    text of group 1 are emitted and the scan goes on after the match;
    at the end of the text the last piece is emitted. *)
Equations? split_from (piece s : str) : list str by wf (length s) lt :=
  split_from piece s with inspect (match_heading s) := {
    | exist _ (Some (label, rest)) Hm => piece :: label :: split_from [] rest
    | exist _ None _ with s := {
        | [] => [piece]
        | c :: s' => split_from (piece ++ [c]) s' } }.
Proof. eapply match_heading_shorter; eauto. Qed.

(** [re.split(r"\*\*\d+\.\s*([^\*]+):\*\*", answer)] *)
Definition re_split (answer : str) : list str := split_from [] answer.

End Split.
Import Split.

(** ** Exceptions *)

Module Exn.

(** The exceptions that reach this code.  A message is a text of any code
    points: the literals of main.py are Cyrillic. *)
Inductive exn : Type :=
| ValueError (message : list N)
| IndexError
| LibraryError (name : string).

Inductive result (A : Type) : Type :=
| Ok (a : A)
| Raise (e : exn).
Arguments Ok {A} a.
Arguments Raise {A} e.

Definition bind {A B} (r : result A) (f : A -> result B) : result B :=
  match r with
  | Ok a => f a
  | Raise e => Raise e
  end.

(** The text of a literal of the source file, which is UTF-8; its code
    points are below U+0800, so that a character has one or two bytes. *)
Fixpoint utf8_bytes (bs : list N) : list N :=
  match bs with
  | [] => []
  | b :: rest =>
      if N.ltb b 128 then b :: utf8_bytes rest
      else match rest with
           | b' :: rest' => ((b mod 32) * 64 + b' mod 64)%N :: utf8_bytes rest'
           | [] => []
           end
  end.

Definition utf8 (s : string) : list N := utf8_bytes (map code (L s)).

End Exn.
Import Exn.

Notation "x <- r ;; k" := (bind r (fun x => k))
  (at level 61, r at next level, right associativity).

(** ** The section parser of [gemini_explain] *)

Module Parser.

(** [data_map]: a dict with the five keys below. *)
Record data_map : Type := {
  explanation : str;
  summary : str;
  key_points : list str;
  risks : list str;
  recommendations : list str
}.

Definition initial : data_map :=
  {| explanation := []; summary := []; key_points := []; risks := [];
     recommendations := [] |}.

Definition set_explanation (d : data_map) (v : str) : data_map :=
  {| explanation := v; summary := summary d; key_points := key_points d;
     risks := risks d; recommendations := recommendations d |}.
Definition set_summary (d : data_map) (v : str) : data_map :=
  {| explanation := explanation d; summary := v; key_points := key_points d;
     risks := risks d; recommendations := recommendations d |}.
Definition set_key_points (d : data_map) (v : list str) : data_map :=
  {| explanation := explanation d; summary := summary d; key_points := v;
     risks := risks d; recommendations := recommendations d |}.
Definition set_risks (d : data_map) (v : list str) : data_map :=
  {| explanation := explanation d; summary := summary d;
     key_points := key_points d; risks := v;
     recommendations := recommendations d |}.
Definition set_recommendations (d : data_map) (v : list str) : data_map :=
  {| explanation := explanation d; summary := summary d;
     key_points := key_points d; risks := risks d; recommendations := v |}.

(** [sections[i]] *)
Definition index (sections : list str) (i : nat) : result str :=
  match nth_error sections i with
  | Some x => Ok x
  | None => Raise IndexError
  end.

(** [range(start, stop, step)], [count] numbers from [start] on. *)
Fixpoint range_from (count start step : nat) : list nat :=
  match count with
  | 0 => []
  | S count' => start :: range_from count' (start + step) step
  end.

Definition range (start stop step : nat) : list nat :=
  range_from ((stop - start + (step - 1)) / step) start step.

(** [[line.strip("* ").strip() for line in section_text.splitlines()
      if line.strip().startswith("*")]] *)
Definition bullet_lines (section_text : str) : list str :=
  map (fun line => strip (strip_chars (L "* ") line))
      (filter (fun line => startswith (strip line) (L "*"))
              (splitlines section_text)).

(** The body of the loop over the odd indices. *)
Definition loop_body (sections : list str) (data_map : data_map) (i : nat)
    : result Parser.data_map :=
  name <- index sections i ;;
  let section_name := lower (strip name) in
  text <- index sections (i + 1) ;;
  let section_text := strip text in
  Ok (if contains (L "explanation") section_name
         || contains (L "explain") section_name
      then set_explanation data_map section_text
      else if contains (L "summary") section_name
      then set_summary data_map section_text
      else if contains (L "key point") section_name
      then set_key_points data_map (bullet_lines section_text)
      else if contains (L "risk") section_name
      then set_risks data_map (bullet_lines section_text)
      else if contains (L "recommendation") section_name
      then set_recommendations data_map (bullet_lines section_text)
      else data_map).

(** [for i in indices: ...], which an exception leaves. *)
Fixpoint for_each {S : Type} (body : S -> nat -> result S) (st : S)
    (indices : list nat) : result S :=
  match indices with
  | [] => Ok st
  | i :: rest => st' <- body st i ;; for_each body st' rest
  end.

(** From [re.split] to the end of the loop. *)
Definition parse_sections (sections : list str) : result data_map :=
  for_each (loop_body sections) initial (range 1 (length sections) 2).

Definition parse_answer (answer : str) : result data_map :=
  parse_sections (re_split answer).

End Parser.
Import Parser.

(** ** The risk score of [gemini_explain] *)

Module Risk.

Section Int.
(** [sys.get_int_max_str_digits()]; 0 when the interpreter has no limit. *)
Variable max_str_digits : nat.

Definition digit (c : ascii) : Z := Z.of_N (code c) - 48.

(** The digits of a literal, with single underscores between digits:
    the value and the number of digits.  [after_digit] tells that the
    last character was a digit. *)
Fixpoint digits_value (after_digit : bool) (value : Z) (count : nat)
    (s : str) : option (Z * nat) :=
  match s with
  | [] => if after_digit then Some (value, count) else None
  | c :: s' =>
      if isdecimal c then
        digits_value true (10 * value + digit c) (S count) s'
      else if Ascii.eqb c "_" && after_digit then
        digits_value false value count s'
      else None
  end.

(** [int(s)] for a [str]: whitespace around, a sign, the digits.
    [None] is the [ValueError] that [int] raises. *)
Definition int (s : str) : option Z :=
  let t := strip s in
  let '(negative, body) :=
    match t with
    | c :: t' =>
        if Ascii.eqb c "-" then (true, t')
        else if Ascii.eqb c "+" then (false, t')
        else (false, t)
    | [] => (false, [])
    end in
  match digits_value false 0 0 body with
  | Some (value, count) =>
      if Nat.ltb 0 max_str_digits && Nat.ltb max_str_digits count then None
      else Some (if negative then - value else value)%Z
  | None => None
  end.

(** The inner [try]: [int(risk_text.strip())], 50 on [ValueError]. *)
Definition risk_of_text (risk_text : str) : Z :=
  match int (strip risk_text) with
  | Some n => n
  | None => 50%Z
  end.

(** The outer [try]: [risk_call] is the outcome of the request for the
    score, up to the text of its first candidate. *)
Definition risk_of_call (risk_call : result str) : Z :=
  match risk_call with
  | Ok risk_text => risk_of_text risk_text
  | Raise _ => 50%Z
  end.
End Int.

End Risk.

(** ** [DocumentResponse] and [gemini_explain] *)

Module DocumentResponse.
Record t : Type := {
  explanation : str;
  summary : str;
  key_points : list str;
  risks : option (list str);
  recommendations : option (list str);
  risk : option Z;
  full_text : str
}.
End DocumentResponse.

(** [gemini_explain(text)]: [main_call] and [risk_call] are the outcomes
    of its two requests, each up to the text of the first candidate. *)
Definition gemini_explain (max_str_digits : nat) (text : str)
    (main_call risk_call : result str) : result DocumentResponse.t :=
  answer <- main_call ;;
  data_map <- parse_answer answer ;;
  let risk := Risk.risk_of_call max_str_digits risk_call in
  Ok {| DocumentResponse.explanation := explanation data_map;
        DocumentResponse.summary := summary data_map;
        DocumentResponse.key_points := key_points data_map;
        DocumentResponse.risks := Some (risks data_map);
        DocumentResponse.recommendations := Some (recommendations data_map);
        DocumentResponse.risk := Some risk;
        DocumentResponse.full_text := text |}.

(** ** Text extraction *)

Module Extract.

Definition bytes := list Byte.byte.

(** [sep.join(parts)] *)
Fixpoint join (sep : str) (parts : list str) : str :=
  match parts with
  | [] => []
  | [x] => x
  | x :: rest => x ++ sep ++ join sep rest
  end.

Definition unsupported_format (filename : str) : exn :=
  ValueError (utf8 "Неподдерживаемый формат файла: " ++ map code filename).

Definition docx_error : exn := ValueError (utf8 "Ошибка при чтении DOCX файла").

Definition pdf_error : exn := ValueError (utf8 "Ошибка при чтении PDF файла").

Section Readers.
(** [content.decode('utf-8', errors='ignore')] *)
Variable decode_ignore : bytes -> str.
(** [docx.Document(BytesIO(b)).paragraphs], the text of each paragraph,
    or the exception of the library. *)
Variable docx_paragraphs : bytes -> result (list str).
(** [PyPDF2.PdfReader(BytesIO(b)).pages], what [extract_text] gives for
    each page, or the exception of the library. *)
Variable pdf_pages : bytes -> result (list (option str)).

Definition extract_text_from_docx (docx_file : bytes) : result str :=
  match docx_paragraphs docx_file with
  | Ok paragraphs => Ok (join (L "
") paragraphs)
  | Raise _ => Raise docx_error
  end.

(** [page.extract_text() or ""] *)
Definition text_or_empty (page : option str) : str :=
  match page with
  | Some text => text
  | None => []
  end.

Definition extract_text_from_pdf (pdf_file : bytes) : result str :=
  match pdf_pages pdf_file with
  | Ok pages => Ok (join (L "
") (map text_or_empty pages))
  | Raise _ => Raise pdf_error
  end.

Definition extract_text_from_file (content : bytes) (filename : str)
    : result str :=
  if endswith filename (L ".txt") then Ok (decode_ignore content)
  else if endswith filename (L ".docx") then extract_text_from_docx content
  else if endswith filename (L ".pdf") then extract_text_from_pdf content
  else Raise (unsupported_format filename).
End Readers.

End Extract.

(** ** The requests to the model *)

Module Upstream.

Unset Elimination Schemes.

(** What [response.json()] returns.  A dict holds each key once. *)
Inductive json : Type :=
| JNull
| JBool (b : bool)
| JNumber (literal : string)
| JString (s : str)
| JList (items : list json)
| JDict (items : list (str * json)).

Set Elimination Schemes.

(** Exceptions of the interpreter and of [requests], by the name of
    their class. *)
Definition KeyError : exn := LibraryError "KeyError".
Definition TypeError : exn := LibraryError "TypeError".
Definition AttributeError : exn := LibraryError "AttributeError".
Definition HTTPError : exn := LibraryError "HTTPError".
Definition JSONDecodeError : exn := LibraryError "JSONDecodeError".

Fixpoint eqb_str (a b : str) : bool :=
  match a, b with
  | [], [] => true
  | x :: a', y :: b' => Ascii.eqb x y && eqb_str a' b'
  | _, _ => false
  end.

Fixpoint lookup (key : str) (items : list (str * json)) : option json :=
  match items with
  | [] => None
  | (k, v) :: rest => if eqb_str k key then Some v else lookup key rest
  end.

(** [v[key]] for a key that is a [str]: a dict has the key or raises
    [KeyError]; nothing else takes such a subscript. *)
Definition getitem (v : json) (key : str) : result json :=
  match v with
  | JDict items =>
      match lookup key items with
      | Some x => Ok x
      | None => Raise KeyError
      end
  | _ => Raise TypeError
  end.

(** [v[0]]: the first item of a list, the first character of a [str];
    no key of a dict that comes from JSON is the integer 0. *)
Definition getitem0 (v : json) : result json :=
  match v with
  | JList (x :: _) => Ok x
  | JList [] => Raise IndexError
  | JString (c :: _) => Ok (JString [c])
  | JString [] => Raise IndexError
  | JDict _ => Raise KeyError
  | _ => Raise TypeError
  end.

(** A response of [requests.post]: its status, and its body when the
    body is JSON. *)
Record response : Type := {
  status_code : Z;
  json_body : option json
}.

(** [response.raise_for_status()] *)
Definition raise_for_status (r : response) : result unit :=
  if (Z.leb 400 (status_code r) && Z.ltb (status_code r) 600)%bool
  then Raise HTTPError else Ok tt.

(** [response.json()] *)
Definition response_json (r : response) : result json :=
  match json_body r with
  | Some v => Ok v
  | None => Raise JSONDecodeError
  end.

(** From [requests.post] to
    [result["candidates"][0]["content"]["parts"][0]["text"]]; [post] is
    the response, or the exception that [requests.post] raises. *)
Definition first_text (post : result response) : result json :=
  response <- post ;;
  checked <- raise_for_status response ;;
  result <- response_json response ;;
  candidates <- getitem result (L "candidates") ;;
  candidate <- getitem0 candidates ;;
  content <- getitem candidate (L "content") ;;
  parts <- getitem content (L "parts") ;;
  part <- getitem0 parts ;;
  getitem part (L "text").

(** [re.split(pattern, answer)] takes a [str] and raises [TypeError] on
    anything else that JSON gives. *)
Definition answer_str (answer : json) : result str :=
  match answer with
  | JString s => Ok s
  | _ => Raise TypeError
  end.

(** [risk_text.strip()]: only a [str] has the method. *)
Definition risk_str (risk_text : json) : result str :=
  match risk_text with
  | JString s => Ok s
  | _ => Raise AttributeError
  end.

(** [gemini_explain(text)] with its two requests: [main_post] and
    [risk_post] are what [requests.post] gives for the analysis and for
    the score. *)
Definition gemini_explain_requests (max_str_digits : nat) (text : str)
    (main_post risk_post : result response) : result DocumentResponse.t :=
  gemini_explain max_str_digits text
    (answer <- first_text main_post ;; answer_str answer)
    (risk_text <- first_text risk_post ;; risk_str risk_text).

End Upstream.
Import Upstream.

(** ** The endpoints *)

Module Api.

(** What the client receives: the body with status 200, or the status
    and the detail of an [HTTPException]. *)
Inductive reply (A : Type) : Type :=
| Reply200 (body : A)
| ReplyError (status : Z) (detail : list N).
Arguments Reply200 {A} body.
Arguments ReplyError {A} status detail.

Section Endpoints.
Variable decode_ignore : Extract.bytes -> str.
Variable docx_paragraphs : Extract.bytes -> result (list str).
Variable pdf_pages : Extract.bytes -> result (list (option str)).
Variable max_str_digits : nat.
(** [str(e)] for the exceptions that carry no message here. *)
Variable describe : exn -> list N.

(** [str(e)] *)
Definition str_of (e : exn) : list N :=
  match e with
  | ValueError message => message
  | _ => describe e
  end.

(** [analyze_document(file)]: [content] is [await file.read()]. *)
Definition analyze_document (content : Extract.bytes) (filename : str)
    (main_post risk_post : result response) : reply DocumentResponse.t :=
  match
    text <- Extract.extract_text_from_file decode_ignore docx_paragraphs
              pdf_pages content filename ;;
    gemini_explain_requests max_str_digits text main_post risk_post
  with
  | Ok document => Reply200 document
  | Raise e => ReplyError 400 (str_of e)
  end.

(** [chat_with_ai(question, document)]: the body is the value of the
    key [answer]; [post] is what [requests.post] gives. *)
Definition chat_with_ai (question document : str)
    (post : result response) : reply json :=
  match first_text post with
  | Ok answer => Reply200 answer
  | Raise e => ReplyError 500 (str_of e)
  end.
End Endpoints.

End Api.
Import Api.

(** ** Registration *)

Module RegisterRequest.
Record t : Type := {
  full_name : str;
  phone : str;
  email : str;
  password : str
}.
End RegisterRequest.

Module User.
Record t : Type := {
  full_name : str;
  phone : str;
  email : str;
  hashed_password : str
}.
End User.

Module Register.

(** What [register_user] does to the session and to the password
    context, in the order in which it does it. *)
Inductive event : Type :=
| Query (email phone : str)
| Hash (password : str)
| Add (user : User.t)
| Commit
| Refresh
| Rollback
| Close.

(** What the session and the password context answer: the row that
    [first()] finds, the hash, and whether [add], [commit], [refresh],
    [rollback] and [close] raise. *)
Record world : Type := {
  first : result (option User.t);
  hash : result str;
  add : result unit;
  commit : result unit;
  refresh : result unit;
  rollback : result unit;
  close : result unit
}.

(** What leaves a block: a value, an [HTTPException], or another
    exception. *)
Inductive outcome (A : Type) : Type :=
| Value (a : A)
| HTTPException (status : Z) (detail : list N)
| Exception (e : exn).
Arguments Value {A} a.
Arguments HTTPException {A} status detail.
Arguments Exception {A} e.

(** A block: its outcome and the events it adds. *)
Definition block (A : Type) : Type := outcome A * list event.

Definition ret {A} (a : A) : block A := (Value a, []).

Definition then_ {A B} (b : block A) (f : A -> block B) : block B :=
  match b with
  | (Value a, events) =>
      let '(o, events') := f a in (o, events ++ events')
  | (HTTPException status detail, events) =>
      (HTTPException status detail, events)
  | (Exception e, events) => (Exception e, events)
  end.

(** A call to the session or to the password context. *)
Definition call {A} (e : event) (answer : result A) : block A :=
  match answer with
  | Ok a => (Value a, [e])
  | Raise x => (Exception x, [e])
  end.

(** [try: body / except HTTPException: raise / except Exception as e:
    handler(e)] *)
Definition try_except {A} (body : block A) (handler : exn -> block A)
    : block A :=
  match body with
  | (Exception e, events) =>
      let '(o, events') := handler e in (o, events ++ events')
  | _ => body
  end.

(** [try: body / finally: last]: what [last] raises replaces the
    outcome of [body]. *)
Definition try_finally {A} (body : block A) (last : block unit) : block A :=
  match last with
  | (Value _, events) => (fst body, snd body ++ events)
  | (HTTPException status detail, events) =>
      (HTTPException status detail, snd body ++ events)
  | (Exception e, events) => (Exception e, snd body ++ events)
  end.

Definition duplicate_detail : list N :=
  utf8 "Пользователь с таким email или телефоном уже существует".

Definition success_message : list N :=
  utf8 "Пользователь успешно зарегистрирован".

Section Endpoint.
(** [str(e)] for the exceptions of the session. *)
Variable describe : exn -> list N.

(** [register_user(data)], from its [try] on; the value is the one of
    the key [message], and a row that [first()] returns is true. *)
Definition register_user (data : RegisterRequest.t) (w : world)
    : block (list N) :=
  try_finally
    (try_except
       (then_ (call (Query (RegisterRequest.email data)
                        (RegisterRequest.phone data)) (first w))
          (fun existing_user =>
        match existing_user with
        | Some _ => (HTTPException 400 duplicate_detail, [])
        | None =>
            then_ (call (Hash (RegisterRequest.password data)) (hash w))
              (fun hashed_password =>
            let new_user :=
              {| User.full_name := RegisterRequest.full_name data;
                 User.phone := RegisterRequest.phone data;
                 User.email := RegisterRequest.email data;
                 User.hashed_password := hashed_password |} in
            then_ (call (Add new_user) (add w)) (fun _ =>
            then_ (call Commit (commit w)) (fun _ =>
            then_ (call Refresh (refresh w)) (fun _ =>
            ret success_message))))
        end))
       (fun e =>
          then_ (call Rollback (rollback w)) (fun _ =>
          (HTTPException 500 (Api.str_of describe e), []))))
    (call Close (close w)).
End Endpoint.

End Register.

(** * Vocabulary of the statements *)

(** ** Trimmed texts *)

Module Trim.

(** No character of [p] at the start. *)
Definition starts_clean (p : ascii -> bool) (s : str) : bool :=
  match s with
  | c :: _ => negb (p c)
  | [] => true
  end.

(** No character of [p] at either end. *)
Definition trimmed (p : ascii -> bool) (s : str) : bool :=
  starts_clean p s && starts_clean p (rev s).

End Trim.
Import Trim.

(** ** Decimal numerals *)

Module Numeral.

(** The number that a string of digits denotes. *)
Definition decimal (digits : str) : Z :=
  fold_left (fun value c => (10 * value + Risk.digit c)%Z) digits 0%Z.

(** What [int] makes of a trimmed text once the sign is taken. *)
Definition read (m : nat) (negative : bool) (body : str) : option Z :=
  match Risk.digits_value false 0 0 body with
  | Some (value, count) =>
      if (Nat.ltb 0 m && Nat.ltb m count)%bool then None
      else Some (if negative then - value else value)%Z
  | None => None
  end.

(** The groups of a text that underscores separate; [group] is the
    group read so far. *)
Fixpoint groups_from (group s : str) : list str :=
  match s with
  | [] => [group]
  | c :: s' =>
      if Ascii.eqb c "_" then group :: groups_from [] s'
      else groups_from (group ++ [c]) s'
  end.

(** A group of digits: decimal digits, and at least one. *)
Definition group_ok (group : str) : bool :=
  match group with
  | [] => false
  | _ :: _ => forallb isdecimal group
  end.

(** [count] digits are within the limit [m] of the interpreter, 0 for
    no limit. *)
Definition within (m count : nat) : bool := Nat.eqb m 0 || Nat.leb count m.

(** A base-10 integer without sign: groups of digits with one
    underscore between two groups, within the limit; its value is the
    one of its digits. *)
Definition unsigned (m : nat) (body : str) : option Z :=
  let digits := concat (groups_from [] body) in
  if forallb group_ok (groups_from [] body) && within m (length digits)
  then Some (decimal digits) else None.

(** The base-10 integer that a trimmed text denotes, if it denotes
    one: a sign or none, then the digits. *)
Definition numeral (m : nat) (t : str) : option Z :=
  match t with
  | c :: body =>
      if Ascii.eqb c "-" then option_map Z.opp (unsigned m body)
      else if Ascii.eqb c "+" then unsigned m body
      else unsigned m t
  | [] => None
  end.

(** [gemini_explain] returns a document whose risk is [v], when its
    first request has given [answer] and its second one [risk_call]. *)
Definition scored (m : nat) (text answer : str) (risk_call : result str)
    (v : Z) : Prop :=
  exists r,
    gemini_explain m text (Ok answer) risk_call = Ok r /\
    DocumentResponse.risk r = Some v.

End Numeral.
Import Numeral.

(** ** Classification of the labels *)

Module Classify.

(** The classification as the specification words it: an ordered table
    of rules, the first applicable one deciding.  [loop_body_feed]
    compares the chain of tests of [loop_body] with it. *)
Inductive field : Type :=
| Explanation | Summary | KeyPoints | Risks | Recommendations.

(** The rules in the order in which the loop tries them: the words to
    find in the label and the field that the heading feeds. *)
Definition rules : list (list str * field) :=
  [ ([L "explanation"; L "explain"], Explanation);
    ([L "summary"], Summary);
    ([L "key point"], KeyPoints);
    ([L "risk"], Risks);
    ([L "recommendation"], Recommendations) ].

(** A rule applies when one of its words occurs in the name. *)
Definition applies (section_name : str) (rule : list str * field) : bool :=
  existsb (fun word => contains word section_name) (fst rule).

(** The field of the first rule, in the order of [rules], one of whose
    words occurs in the trimmed label put in lower case. *)
Definition classify (label : str) : option field :=
  option_map snd (find (applies (lower (strip label))) rules).

(** What a field holds: a text, or the bulleted lines. *)
Inductive value : Type :=
| Text (s : str)
| Items (l : list str).

(** [data_map[key]] for the key of a field. *)
Definition get (f : field) (d : data_map) : value :=
  match f with
  | Explanation => Text (explanation d)
  | Summary => Text (summary d)
  | KeyPoints => Items (key_points d)
  | Risks => Items (risks d)
  | Recommendations => Items (recommendations d)
  end.

(** The value of a field that no heading has fed. *)
Definition empty (f : field) : value :=
  match f with
  | Explanation | Summary => Text []
  | KeyPoints | Risks | Recommendations => Items []
  end.

(** The value that the body of a heading gives to its field. *)
Definition derive (f : field) (text : str) : value :=
  match f with
  | Explanation | Summary => Text (strip text)
  | KeyPoints | Risks | Recommendations => Items (bullet_lines (strip text))
  end.

(** The assignment that the loop makes for a heading of field [f]. *)
Definition store (d : data_map) (f : field) (text : str) : data_map :=
  match f with
  | Explanation => set_explanation d (strip text)
  | Summary => set_summary d (strip text)
  | KeyPoints => set_key_points d (bullet_lines (strip text))
  | Risks => set_risks d (bullet_lines (strip text))
  | Recommendations => set_recommendations d (bullet_lines (strip text))
  end.

(** One heading with its body. *)
Definition feed (d : data_map) (heading : str * str) : data_map :=
  match classify (fst heading) with
  | Some f => store d f (snd heading)
  | None => d
  end.

(** The label/body pairs that follow the first piece of a segmentation. *)
Fixpoint headings (pieces : list str) : list (str * str) :=
  match pieces with
  | name :: text :: rest => (name, text) :: headings rest
  | _ => []
  end.

(** The headings of an answer with their bodies, in their order. *)
Definition headings_of (answer : str) : list (str * str) :=
  headings (tl (re_split answer)).

(** [u] is the capital of the letter [l], for the letters A to Z. *)
Definition capital_of (u l : ascii) : bool :=
  between 65 90 u && N.eqb (code l) (code u + 32).

(** The same character, or the same letter in the two cases. *)
Definition same_letter (c d : ascii) : bool :=
  Ascii.eqb c d || capital_of c d || capital_of d c.

(** [s] starts with [w], the case of the letters apart. *)
Fixpoint starts_nocase (s w : str) {struct w} : bool :=
  match w with
  | [] => true
  | a :: w' =>
      match s with
      | c :: s' => same_letter c a && starts_nocase s' w'
      | [] => false
      end
  end.

(** [w] is a part of [s], the case of the letters apart. *)
Fixpoint occurs_nocase (w s : str) : bool :=
  starts_nocase s w ||
  match s with
  | _ :: s' => occurs_nocase w s'
  | [] => false
  end.

(** A rule applies to a label when one of its words is a part of the
    label, the case apart. *)
Definition applies_nocase (label : str) (rule : list str * field) : bool :=
  existsb (fun word => occurs_nocase word label) (fst rule).

(** The field of a label: the one of the first rule that applies, in
    the order of [rules]. *)
Definition field_of (label : str) : option field :=
  option_map snd (find (applies_nocase label) rules).

(** A small letter. *)
Definition letter (c : ascii) : bool := between 97 122 c.

(** Small letters and spaces, with a letter at each end. *)
Definition wordlike (w : str) : bool :=
  forallb (fun c => letter c || Ascii.eqb c " ") w
  && match w with a :: _ => letter a | [] => false end
  && match rev w with a :: _ => letter a | [] => false end.

End Classify.
Import Classify.

(** ** Headings and lines in a text *)

Module Shape.

(** The line feed. *)
Definition nl : str := ["010"%char].

(** [s] starts with a heading. *)
Definition heading_at (s : str) : Prop :=
  exists digits spaces label rest,
    s = L "**" ++ digits ++ L "." ++ spaces ++ label ++ L ":**" ++ rest /\
    digits <> [] /\ forallb isdecimal digits = true /\
    forallb isspace spaces = true /\
    label <> [] /\ forallb not_asterisk label = true.

(** [name] is the label of a heading somewhere in [answer]. *)
Definition occurs_heading (name answer : str) : Prop :=
  exists before digits spaces after,
    answer = before ++ L "**" ++ digits ++ L "." ++ spaces ++ name
                    ++ L ":**" ++ after /\
    digits <> [] /\ forallb isdecimal digits = true /\
    forallb isspace spaces = true /\
    name <> [] /\ forallb not_asterisk name = true.

(** What may follow a line: nothing, or an asterisk. *)
Definition tail_ok (tail : str) : bool :=
  match tail with
  | [] => true
  | c :: _ => Ascii.eqb c "*"
  end.

(** No suffix of [s] starts with a heading. *)
Definition inert (s : str) : Prop :=
  forall a u, s = a ++ u -> match_heading u = None.

(** No two asterisks side by side, and no asterisk at the end: no
    heading can start inside such a text, whatever follows it. *)
Fixpoint no_double_asterisk (s : str) : bool :=
  match s with
  | c :: s' =>
      (not_asterisk c
       || match s' with
          | c' :: _ => not_asterisk c'
          | [] => false
          end)
      && no_double_asterisk s'
  | [] => true
  end.

(** Not a line boundary. *)
Definition not_break (c : ascii) : bool := negb (islinebreak c).

(** An asterisk or a whitespace character. *)
Definition junk (c : ascii) : bool := Ascii.eqb c "*" || isspace c.

(** An asterisk or a space. *)
Definition mark (c : ascii) : bool := Ascii.eqb c "*" || Ascii.eqb c " ".

(** [entry] is [line] cleaned: the asterisks and spaces of the two ends
    are taken off, as far as they go, then the whitespace of the two
    ends of what is left. *)
Definition cleaned (line entry : str) : Prop :=
  exists marks spaces spaces' marks',
    line = marks ++ spaces ++ entry ++ spaces' ++ marks' /\
    forallb mark marks = true /\ forallb mark marks' = true /\
    forallb isspace spaces = true /\ forallb isspace spaces' = true /\
    trimmed mark (spaces ++ entry ++ spaces') = true /\
    trimmed isspace entry = true.

(** Not a whitespace character other than the space. *)
Definition plain_space (c : ascii) : bool :=
  negb (isspace c) || Ascii.eqb c " ".

End Shape.
Import Shape.

(** ** What the parser's output is made of *)

Module Output.

(** A text field: trimmed, and no heading starts in it. *)
Definition text_ok (t : str) : Prop :=
  inert t /\ trimmed isspace t = true.

(** An entry of a list field: moreover without a line boundary. *)
Definition item_ok (item : str) : Prop :=
  inert item /\ trimmed isspace item = true /\
  forallb not_break item = true.

(** What holds of every output of the parser. *)
Definition output_ok (d : data_map) : Prop :=
  text_ok (explanation d) /\ text_ok (summary d) /\
  Forall item_ok (key_points d) /\ Forall item_ok (risks d) /\
  Forall item_ok (recommendations d).

End Output.
Import Output.

(** ** A synthetic answer *)

Module Synthetic.

(** Two lines that start with an asterisk and one that does not. *)
Definition key_points_body : str := L "
* Rent is due monthly
See the annex for the amounts
* Deposit of two months
".

(** One bulleted line. *)
Definition recommendations_body : str := L "
* Ask for a cap on penalties
".

(** The five headings of the prompt, with the given bodies for the
    explanation, the summary and the risks. *)
Definition answer (explanation_body summary_body risks_body : str) : str :=
  L "**1. Explanation:**" ++ explanation_body ++
  L "**2. Summary:**" ++ summary_body ++
  L "**3. Key Points:**" ++ key_points_body ++
  L "**4. Risks:**" ++ risks_body ++
  L "**5. Recommendations:**" ++ recommendations_body.

End Synthetic.

(** ** The answer rebuilt from the parser's output *)

Module Reconstruct.

(** Modelled from the spec: the bulleted lines of a list field, one line
    [* entry] for each entry.  main.py has no function that writes an
    answer; the spec names the reconstruction in its idempotence
    property only. *)
Definition bullets (items : list str) : str :=
  concat (map (fun item => L "* " ++ item ++ nl) items).

(** Modelled from the spec: the parser's output written back as an
    answer, the heading of each field as the prompt numbers and names
    it, followed on the next lines by the text of the field or by its
    bulleted lines.  main.py has no such function. *)
Definition reconstruct (d : data_map) : str :=
  L "**1. Explanation:**" ++ (nl ++ explanation d ++ nl) ++
  L "**2. Summary:**" ++ (nl ++ summary d ++ nl) ++
  L "**3. Key Points:**" ++ (nl ++ bullets (key_points d)) ++
  L "**4. Risks:**" ++ (nl ++ bullets (risks d)) ++
  L "**5. Recommendations:**" ++ (nl ++ bullets (recommendations d)).

(** The statement of the round trip and the notions of its proof. *)
Definition is_asterisk (c : ascii) : bool := Ascii.eqb c "*".

(** No asterisk at either end. *)
Definition clean (item : str) : bool := trimmed is_asterisk item.

(** A body that the scan passes whole, whatever piece it is in and
    whenever an asterisk or nothing follows. *)
Definition passable (body : str) : Prop :=
  forall piece tail, tail_ok tail = true ->
    split_from piece (body ++ tail) = split_from (piece ++ body) tail.

(** The line of an entry, without its line feed. *)
Definition line_of (item : str) : str := L "* " ++ item.

(** The last line of the bulleted lines once the body is trimmed, and
    what the trimming takes after it. *)
Definition final_line (item : str) : str :=
  match item with
  | [] => L "*"
  | _ => line_of item
  end.

Definition final_gap (item : str) : str :=
  match item with
  | [] => L " " ++ nl
  | _ => nl
  end.

(** An entry that the bulleted lines give back. *)
Definition readable (item : str) : Prop :=
  trimmed isspace item = true /\ forallb not_break item = true /\
  clean item = true.

End Reconstruct.

(** ** The pieces of a segmentation *)

Module Pieces.

(** The text that a segmentation came from: the pieces and the labels
    put back in their order, each label inside its heading, whose digits
    and whitespace [marks] gives. *)
Fixpoint glue (sections : list str) (marks : list (str * str)) : str :=
  match sections with
  | [] => []
  | [piece] => piece
  | piece :: label :: rest =>
      match marks with
      | (digits, spaces) :: marks' =>
          piece ++ L "**" ++ digits ++ L "." ++ spaces ++ label ++ L ":**"
                ++ glue rest marks'
      | [] => piece
      end
  end.

(** The digits and the whitespace of a heading. *)
Definition mark_ok (mark : str * str) : Prop :=
  fst mark <> [] /\ forallb isdecimal (fst mark) = true /\
  forallb isspace (snd mark) = true.

(** [t] is a part of [s]. *)
Definition part_of (s t : str) : Prop := exists a b, s = a ++ t ++ b.

(** The text fields and the entries of the list fields of an output. *)
Definition texts (d : data_map) : list str :=
  explanation d :: summary d ::
  key_points d ++ risks d ++ recommendations d.

End Pieces.
Import Pieces.

(** ** The reply of the model *)

Module ReplyShape.

(** The response has no error status and its body has the text [text]
    at [["candidates"][0]["content"]["parts"][0]["text"]], through dicts
    and lists. *)
Definition well_formed (r : response) (text : json) : Prop :=
  (status_code r < 400 \/ 600 <= status_code r)%Z /\
  exists top candidate candidates content part parts,
    json_body r = Some (JDict top) /\
    lookup (L "candidates") top = Some (JList (JDict candidate :: candidates)) /\
    lookup (L "content") candidate = Some (JDict content) /\
    lookup (L "parts") content = Some (JList (JDict part :: parts)) /\
    lookup (L "text") part = Some text.

(** The document that [gemini_explain] builds from the output of the
    parser, a score and the text of the file. *)
Definition document_of (d : data_map) (score : Z) (text : str)
    : DocumentResponse.t :=
  {| DocumentResponse.explanation := explanation d;
     DocumentResponse.summary := summary d;
     DocumentResponse.key_points := key_points d;
     DocumentResponse.risks := Some (risks d);
     DocumentResponse.recommendations := Some (recommendations d);
     DocumentResponse.risk := Some score;
     DocumentResponse.full_text := text |}.

End ReplyShape.
Import ReplyShape.

(** * Properties *)

(** ** Stripping *)

Module StripFacts.

Lemma forallb_rev (p : ascii -> bool) s :
  forallb p (rev s) = forallb p s.
Proof.
  induction s as [|c s IH]; simpl; [reflexivity|].
  rewrite forallb_app, IH. simpl. rewrite andb_true_r. apply andb_comm.
Qed.

Lemma lstrip_with_app_all p pre s :
  forallb p pre = true -> lstrip_with p (pre ++ s) = lstrip_with p s.
Proof.
  induction pre as [|c pre IH]; simpl; [reflexivity|].
  intros H. apply andb_true_iff in H. destruct H as [-> H]. auto.
Qed.

Lemma lstrip_with_clean p s :
  starts_clean p s = true -> lstrip_with p s = s.
Proof.
  destruct s as [|c s]; simpl; [reflexivity|].
  destruct (p c); [discriminate|reflexivity].
Qed.

Lemma lstrip_with_all p s : forallb p s = true -> lstrip_with p s = [].
Proof.
  intros H. rewrite <- (app_nil_r s). rewrite lstrip_with_app_all; auto.
Qed.

Lemma lstrip_starts_clean p s : starts_clean p (lstrip_with p s) = true.
Proof.
  induction s as [|c s IH]; simpl; [reflexivity|].
  destruct (p c) eqn:E; [assumption|]. simpl. rewrite E. reflexivity.
Qed.

Lemma lstrip_decomp p s :
  exists pre, s = pre ++ lstrip_with p s /\ forallb p pre = true.
Proof.
  induction s as [|c s (pre & IH & Hpre)]; simpl.
  - exists []; auto.
  - destruct (p c) eqn:E.
    + exists (c :: pre). simpl. rewrite E, Hpre. split; [congruence|reflexivity].
    + exists []; auto.
Qed.

Lemma rstrip_with_app_all p s post :
  forallb p post = true -> rstrip_with p (s ++ post) = rstrip_with p s.
Proof.
  intros H. unfold rstrip_with. rewrite rev_app_distr.
  rewrite lstrip_with_app_all; [reflexivity|]. rewrite forallb_rev; assumption.
Qed.

Lemma rstrip_with_clean p s :
  starts_clean p (rev s) = true -> rstrip_with p s = s.
Proof.
  intros H. unfold rstrip_with. rewrite lstrip_with_clean by assumption.
  apply rev_involutive.
Qed.

Lemma rstrip_with_all p s : forallb p s = true -> rstrip_with p s = [].
Proof.
  intros H. unfold rstrip_with. rewrite lstrip_with_all; [reflexivity|].
  rewrite forallb_rev; assumption.
Qed.

Lemma rstrip_ends_clean p s : starts_clean p (rev (rstrip_with p s)) = true.
Proof.
  unfold rstrip_with. rewrite rev_involutive. apply lstrip_starts_clean.
Qed.

Lemma rstrip_decomp p s :
  exists post, s = rstrip_with p s ++ post /\ forallb p post = true.
Proof.
  destruct (lstrip_decomp p (rev s)) as (pre & E & Hpre).
  exists (rev pre). rewrite forallb_rev. split; [|assumption].
  unfold rstrip_with. rewrite <- rev_app_distr, <- E. symmetry.
  apply rev_involutive.
Qed.

Lemma rstrip_starts_clean p s :
  starts_clean p s = true -> starts_clean p (rstrip_with p s) = true.
Proof.
  intros H. destruct (rstrip_decomp p s) as (post & E & _).
  destruct (rstrip_with p s) as [|c r]; [reflexivity|].
  rewrite E in H. exact H.
Qed.

Lemma strip_with_trimmed p s : trimmed p (strip_with p s) = true.
Proof.
  unfold trimmed, strip_with.
  rewrite rstrip_starts_clean by apply lstrip_starts_clean.
  rewrite rstrip_ends_clean. reflexivity.
Qed.

Lemma strip_with_id p s : trimmed p s = true -> strip_with p s = s.
Proof.
  unfold trimmed, strip_with. intros H. apply andb_true_iff in H.
  destruct H as [H1 H2]. rewrite lstrip_with_clean by assumption.
  apply rstrip_with_clean; assumption.
Qed.

Lemma strip_with_idem p s : strip_with p (strip_with p s) = strip_with p s.
Proof. apply strip_with_id, strip_with_trimmed. Qed.

Lemma strip_with_all p s : forallb p s = true -> strip_with p s = [].
Proof.
  intros H. unfold strip_with. rewrite lstrip_with_all by assumption.
  reflexivity.
Qed.

Lemma strip_with_decomp p s :
  exists pre post,
    s = pre ++ strip_with p s ++ post /\
    forallb p pre = true /\ forallb p post = true.
Proof.
  destruct (lstrip_decomp p s) as (pre & E1 & Hpre).
  destruct (rstrip_decomp p (lstrip_with p s)) as (post & E2 & Hpost).
  exists pre, post. unfold strip_with. rewrite <- E2. auto.
Qed.

(** What lies between two runs of [p] and is trimmed is what [strip]
    gives. *)
Lemma strip_with_sandwich p pre core post :
  forallb p pre = true -> forallb p post = true -> trimmed p core = true ->
  strip_with p (pre ++ core ++ post) = core.
Proof.
  intros Hpre Hpost Hcore. unfold strip_with.
  rewrite lstrip_with_app_all by assumption.
  unfold trimmed in Hcore. apply andb_true_iff in Hcore.
  destruct Hcore as [H1 H2].
  destruct core as [|c core].
  - simpl. rewrite lstrip_with_all by assumption. reflexivity.
  - rewrite lstrip_with_clean by exact H1.
    rewrite rstrip_with_app_all by assumption.
    apply rstrip_with_clean; assumption.
Qed.

Lemma strip_idem s : strip (strip s) = strip s.
Proof. apply strip_with_idem. Qed.

End StripFacts.
Import StripFacts.

(** ** Segmentation *)

Module SplitFacts.

Lemma split_from_eq piece s :
  split_from piece s =
  match match_heading s with
  | Some (label, rest) => piece :: label :: split_from [] rest
  | None =>
      match s with
      | [] => [piece]
      | c :: s' => split_from (piece ++ [c]) s'
      end
  end.
Proof.
  funelim (split_from piece s).
  - rewrite Hm. reflexivity.
  - reflexivity.
  - match goal with E : match_heading _ = None |- _ => rewrite E end.
    reflexivity.
Qed.

(** Induction along the scan. *)
Lemma scan_ind (P : str -> str -> Prop) :
  (forall piece s label rest,
      match_heading s = Some (label, rest) -> P [] rest -> P piece s) ->
  (forall piece, P piece []) ->
  (forall piece c s,
      match_heading (c :: s) = None -> P (piece ++ [c]) s -> P piece (c :: s)) ->
  forall piece s, P piece s.
Proof.
  intros Hmatch Hend Hskip piece s. revert piece.
  induction s as [s IH] using (induction_ltof1 _ (@length ascii)).
  intros piece. destruct (match_heading s) as [[label rest]|] eqn:E.
  - eapply Hmatch; eauto. apply IH. apply (match_heading_shorter _ _ _ E).
  - destruct s as [|c s]; [apply Hend|].
    apply Hskip; auto. apply IH. unfold ltof. simpl. lia.
Qed.

Lemma split_from_odd piece s :
  Nat.odd (length (split_from piece s)) = true.
Proof.
  revert piece s. apply scan_ind; intros.
  - rewrite split_from_eq, H. simpl length.
    rewrite Nat.odd_succ, Nat.even_succ. assumption.
  - rewrite split_from_eq. reflexivity.
  - rewrite split_from_eq, H. assumption.
Qed.

Lemma re_split_odd answer : Nat.odd (length (re_split answer)) = true.
Proof. apply split_from_odd. Qed.

End SplitFacts.
Import SplitFacts.

(** ** The loop *)

Module LoopFacts.

Lemma range_from_In count start step i :
  In i (range_from count start step) ->
  exists j, j < count /\ i = start + j * step.
Proof.
  revert start; induction count as [|count IH]; intros start H; simpl in H.
  - contradiction.
  - destruct H as [<- | H].
    + exists 0. lia.
    + destruct (IH _ H) as (j & Hj & ->). exists (S j). lia.
Qed.

(** The numbers of [range(1, n, 2)] are odd and below [n]. *)
Lemma range_odd_In n i :
  In i (range 1 n 2) -> exists j, i = 2 * j + 1 /\ i < n.
Proof.
  unfold range. intros H. apply range_from_In in H.
  destruct H as (j & Hj & ->). exists j. split; [lia|].
  replace (n - 1 + (2 - 1)) with (n - 1 + 1) in Hj by lia.
  assert (Hd := Nat.div_mod_eq (n - 1 + 1) 2).
  assert (Hm := Nat.mod_upper_bound (n - 1 + 1) 2).
  destruct n; simpl in *; lia.
Qed.

Lemma odd_length_next (n i j : nat) :
  Nat.odd n = true -> i = 2 * j + 1 -> i < n -> i + 1 < n.
Proof.
  intros Hn -> Hi.
  destruct (Nat.eq_dec (2 * j + 1 + 1) n) as [E|E]; [|lia].
  subst n. replace (2 * j + 1 + 1) with (2 * (j + 1)) in Hn by lia.
  rewrite Nat.odd_even in Hn. discriminate.
Qed.

Lemma index_Ok sections i :
  i < length sections -> exists x, index sections i = Ok x.
Proof.
  intros H. unfold index.
  destruct (nth_error sections i) eqn:E; eauto.
  apply nth_error_None in E. lia.
Qed.

Lemma loop_body_Ok sections d i :
  Nat.odd (length sections) = true -> In i (range 1 (length sections) 2) ->
  exists d', loop_body sections d i = Ok d'.
Proof.
  intros Hodd Hi. destruct (range_odd_In _ _ Hi) as (j & Hj & Hlt).
  assert (Hnext := odd_length_next _ _ _ Hodd Hj Hlt).
  destruct (index_Ok sections _ Hlt) as (name & Hname).
  destruct (index_Ok sections _ Hnext) as (text & Htext).
  unfold loop_body. rewrite Hname. simpl. rewrite Htext. simpl. eauto.
Qed.

Lemma for_each_Ok {S} (body : S -> nat -> result S) indices :
  (forall st i, In i indices -> exists st', body st i = Ok st') ->
  forall st, exists st', for_each body st indices = Ok st'.
Proof.
  induction indices as [|i rest IH]; intros Hbody st; simpl.
  - eauto.
  - destruct (Hbody st i) as (st' & E); [left; reflexivity|].
    rewrite E. simpl. apply IH. intros; apply Hbody; right; assumption.
Qed.

Lemma parse_sections_Ok sections :
  Nat.odd (length sections) = true ->
  exists data_map, parse_sections sections = Ok data_map.
Proof.
  intros Hodd. unfold parse_sections.
  apply for_each_Ok. intros st i Hi. apply loop_body_Ok; assumption.
Qed.

Lemma parse_answer_Ok answer :
  exists data_map, parse_answer answer = Ok data_map.
Proof. apply parse_sections_Ok, re_split_odd. Qed.

End LoopFacts.
Import LoopFacts.

(** C10: the segmentation of every answer has odd length, so that for
    every index [i] of the loop both [sections[i]] and [sections[i+1]]
    exist, and the loop ends without an [IndexError]. *)
Theorem segmentation_odd_no_index_error (answer : str) :
  let sections := re_split answer in
  Nat.odd (length sections) = true /\
  (forall i, In i (range 1 (length sections) 2) ->
     exists name text,
       index sections i = Ok name /\ index sections (i + 1) = Ok text) /\
  (exists data_map, parse_answer answer = Ok data_map).
Proof.
  intros sections. assert (Hodd := re_split_odd answer). fold sections in Hodd.
  split; [assumption|]. split.
  - intros i Hi. destruct (range_odd_In _ _ Hi) as (j & Hj & Hlt).
    assert (Hnext := odd_length_next _ _ _ Hodd Hj Hlt).
    destruct (index_Ok sections _ Hlt) as (name & Hname).
    destruct (index_Ok sections _ Hnext) as (text & Htext). eauto.
  - apply parse_answer_Ok.
Qed.

(** ** Text extraction *)

Module ExtractFacts.
Import Extract.

Lemma startswith_head_diff s a b w w' :
  a <> b -> startswith s (a :: w) = true -> startswith s (b :: w') = false.
Proof.
  intros Hab. destruct s as [|c s]; simpl; [discriminate|].
  destruct (Ascii.eqb_spec c a) as [->|]; [|discriminate].
  intros _. destruct (Ascii.eqb_spec a b); [contradiction|reflexivity].
Qed.

Lemma docx_not_txt filename :
  endswith filename (L ".docx") = true -> endswith filename (L ".txt") = false.
Proof. apply startswith_head_diff. discriminate. Qed.

Lemma pdf_not_txt filename :
  endswith filename (L ".pdf") = true -> endswith filename (L ".txt") = false.
Proof. apply startswith_head_diff. discriminate. Qed.

Lemma pdf_not_docx filename :
  endswith filename (L ".pdf") = true -> endswith filename (L ".docx") = false.
Proof. apply startswith_head_diff. discriminate. Qed.

(** The three messages differ in their first or twentieth code point. *)
Lemma docx_error_not_unsupported filename :
  docx_error <> unsupported_format filename.
Proof. unfold docx_error, unsupported_format. vm_compute. discriminate. Qed.

Lemma pdf_error_not_unsupported filename :
  pdf_error <> unsupported_format filename.
Proof. unfold pdf_error, unsupported_format. vm_compute. discriminate. Qed.

End ExtractFacts.

(** C6: a filename that ends in none of [.txt], [.docx], [.pdf] makes
    the extraction raise the unsupported-format error, whatever the
    content and whatever the readers would do. *)
Theorem unsupported_suffix_raises
    (decode_ignore : Extract.bytes -> str)
    (docx_paragraphs : Extract.bytes -> result (list str))
    (pdf_pages : Extract.bytes -> result (list (option str)))
    (content : Extract.bytes) (filename : str) :
  endswith filename (L ".txt") = false ->
  endswith filename (L ".docx") = false ->
  endswith filename (L ".pdf") = false ->
  Extract.extract_text_from_file decode_ignore docx_paragraphs pdf_pages
    content filename = Raise (Extract.unsupported_format filename).
Proof.
  intros Htxt Hdocx Hpdf. unfold Extract.extract_text_from_file.
  rewrite Htxt, Hdocx, Hpdf. reflexivity.
Qed.

Lemma unsupported_suffix_raises_witness :
  Extract.extract_text_from_file
    (fun _ => []) (fun _ => Ok []) (fun _ => Ok [])
    [Byte.x25; Byte.x50] (L "contract.doc")
  = Raise (Extract.unsupported_format (L "contract.doc")).
Proof.
  apply unsupported_suffix_raises; reflexivity.
Defined.

(** C4: when the reader of a [.docx] or [.pdf] file raises, the
    extraction raises the read error of that format, and this error is
    not the one that any unrecognized filename suffix produces. *)
Theorem reader_failure_is_distinct
    (decode_ignore : Extract.bytes -> str)
    (docx_paragraphs : Extract.bytes -> result (list str))
    (pdf_pages : Extract.bytes -> result (list (option str)))
    (content : Extract.bytes) (filename : str) (e : exn) :
  (endswith filename (L ".docx") = true /\ docx_paragraphs content = Raise e) \/
  (endswith filename (L ".pdf") = true /\ pdf_pages content = Raise e) ->
  exists err,
    Extract.extract_text_from_file decode_ignore docx_paragraphs pdf_pages
      content filename = Raise err /\
    (err = Extract.docx_error \/ err = Extract.pdf_error) /\
    forall content' filename',
      endswith filename' (L ".txt") = false ->
      endswith filename' (L ".docx") = false ->
      endswith filename' (L ".pdf") = false ->
      Extract.extract_text_from_file decode_ignore docx_paragraphs pdf_pages
        content' filename' <> Raise err.
Proof.
  intros [[Hsuffix Hread] | [Hsuffix Hread]].
  - exists Extract.docx_error. split; [|split].
    + unfold Extract.extract_text_from_file, Extract.extract_text_from_docx.
      rewrite (ExtractFacts.docx_not_txt _ Hsuffix), Hsuffix, Hread.
      reflexivity.
    + left; reflexivity.
    + intros content' filename' H1 H2 H3.
      rewrite (unsupported_suffix_raises _ _ _ _ _ H1 H2 H3).
      intros E. apply (ExtractFacts.docx_error_not_unsupported filename').
      congruence.
  - exists Extract.pdf_error. split; [|split].
    + unfold Extract.extract_text_from_file, Extract.extract_text_from_pdf.
      rewrite (ExtractFacts.pdf_not_txt _ Hsuffix),
        (ExtractFacts.pdf_not_docx _ Hsuffix), Hsuffix, Hread.
      reflexivity.
    + right; reflexivity.
    + intros content' filename' H1 H2 H3.
      rewrite (unsupported_suffix_raises _ _ _ _ _ H1 H2 H3).
      intros E. apply (ExtractFacts.pdf_error_not_unsupported filename').
      congruence.
Qed.

Lemma reader_failure_is_distinct_witness :
  exists err,
    Extract.extract_text_from_file
      (fun _ => []) (fun _ => Raise (LibraryError "PackageNotFoundError"))
      (fun _ => Ok []) [Byte.x50; Byte.x4b] (L "lease.docx") = Raise err /\
    (err = Extract.docx_error \/ err = Extract.pdf_error) /\
    forall content' filename',
      endswith filename' (L ".txt") = false ->
      endswith filename' (L ".docx") = false ->
      endswith filename' (L ".pdf") = false ->
      Extract.extract_text_from_file
        (fun _ => []) (fun _ => Raise (LibraryError "PackageNotFoundError"))
        (fun _ => Ok []) content' filename' <> Raise err.
Proof.
  apply (reader_failure_is_distinct (fun _ => [])
           (fun _ => Raise (LibraryError "PackageNotFoundError"))
           (fun _ => Ok []) [Byte.x50; Byte.x4b] (L "lease.docx")
           (LibraryError "PackageNotFoundError")).
  left. split; reflexivity.
Defined.

(** ** The risk score *)

Module RiskFacts.
Import Risk.

Lemma decimal_not_space c : isdecimal c = true -> isspace c = false.
Proof.
  destruct c as [[] [] [] [] [] [] [] []]; vm_compute; congruence.
Qed.

Lemma decimal_not_sign c :
  isdecimal c = true -> Ascii.eqb c "-" = false /\ Ascii.eqb c "+" = false.
Proof.
  destruct c as [[] [] [] [] [] [] [] []]; vm_compute; intuition congruence.
Qed.

Lemma digits_trimmed ds :
  forallb isdecimal ds = true -> trimmed isspace ds = true.
Proof.
  intros H. unfold trimmed.
  assert (Hc : forall s, forallb isdecimal s = true ->
                         starts_clean isspace s = true).
  { intros [|c s]; simpl; [reflexivity|]. intros Hs.
    apply andb_true_iff in Hs. destruct Hs as [Hs _].
    rewrite (decimal_not_space _ Hs). reflexivity. }
  rewrite (Hc _ H). rewrite Hc; [reflexivity|].
  rewrite forallb_rev. assumption.
Qed.

Lemma digits_value_digits ds : forall after value count,
  forallb isdecimal ds = true -> ds <> [] \/ after = true ->
  digits_value after value count ds =
  Some (fold_left (fun v c => (10 * v + digit c)%Z) ds value,
        count + length ds).
Proof.
  induction ds as [|c ds IH]; intros after value count Hd Hne; simpl.
  - destruct Hne as [Hne | ->]; [contradiction|].
    rewrite Nat.add_0_r. reflexivity.
  - simpl in Hd. apply andb_true_iff in Hd. destruct Hd as [Hc Hd].
    rewrite Hc. rewrite IH by auto. f_equal. f_equal. lia.
Qed.

Lemma digits_value_stray c s : forall after value count,
  In c s -> isdecimal c = false -> c <> "_"%char ->
  digits_value after value count s = None.
Proof.
  induction s as [|a s IH]; intros after value count Hin Hc Hu; simpl.
  - contradiction.
  - destruct Hin as [-> | Hin].
    + rewrite Hc. destruct (Ascii.eqb_spec c "_"); [contradiction|].
      reflexivity.
    + destruct (isdecimal a); [apply IH; assumption|].
      destruct (Ascii.eqb a "_" && after); [apply IH; assumption|reflexivity].
Qed.

Section Limit.
Variable max_str_digits : nat.

Lemma int_digits pre ds post :
  forallb isspace pre = true -> forallb isspace post = true ->
  ds <> [] -> forallb isdecimal ds = true ->
  max_str_digits = 0 \/ length ds <= max_str_digits ->
  int max_str_digits (pre ++ ds ++ post) = Some (decimal ds).
Proof.
  intros Hpre Hpost Hne Hd Hlimit. unfold int, strip.
  rewrite strip_with_sandwich by auto using digits_trimmed.
  destruct ds as [|c ds]; [contradiction|].
  assert (Hc : isdecimal c = true).
  { simpl in Hd. apply andb_true_iff in Hd. tauto. }
  destruct (decimal_not_sign _ Hc) as [-> ->].
  rewrite digits_value_digits by auto.
  replace (Nat.ltb 0 max_str_digits && Nat.ltb max_str_digits (0 + length (c :: ds)))
    with false; [reflexivity|].
  symmetry. apply andb_false_iff.
  destruct Hlimit as [-> | Hle]; [left; reflexivity|].
  right. apply Nat.ltb_ge. simpl in *. lia.
Qed.

Lemma int_stray t c :
  In c (strip t) -> isdecimal c = false ->
  c <> "_"%char -> c <> "+"%char -> c <> "-"%char ->
  int max_str_digits t = None.
Proof.
  intros Hin Hd Hu Hp Hm. unfold int.
  destruct (strip t) as [|a u]; [contradiction|].
  assert (Hbody : forall body, In c body ->
            match digits_value false 0 0 body with
            | Some (value, count) =>
                if Nat.ltb 0 max_str_digits && Nat.ltb max_str_digits count
                then None else Some value
            | None => @None Z
            end = None /\
            match digits_value false 0 0 body with
            | Some (value, count) =>
                if Nat.ltb 0 max_str_digits && Nat.ltb max_str_digits count
                then None else Some (- value)%Z
            | None => @None Z
            end = None).
  { intros body Hb. rewrite (digits_value_stray c body false 0%Z 0 Hb Hd Hu). auto. }
  destruct (Ascii.eqb_spec a "-") as [->|Ha1].
  - destruct Hin as [E | Hin]; [congruence|]. apply (Hbody u Hin).
  - destruct (Ascii.eqb_spec a "+") as [->|Ha2].
    + destruct Hin as [E | Hin]; [congruence|]. apply (Hbody u Hin).
    + apply (Hbody (a :: u) Hin).
Qed.

Lemma int_empty t : strip t = [] -> int max_str_digits t = None.
Proof. intros H. unfold int. rewrite H. reflexivity. Qed.

End Limit.

Lemma limit_allows (m n : nat) :
  m = 0 \/ 640 <= m -> n <= 640 -> m = 0 \/ n <= m.
Proof. lia. Qed.

Lemma risk_of_text_digits m pre ds post :
  forallb isspace pre = true -> forallb isspace post = true ->
  ds <> [] -> forallb isdecimal ds = true ->
  m = 0 \/ length ds <= m ->
  Risk.risk_of_text m (pre ++ ds ++ post) = decimal ds.
Proof.
  intros Hpre Hpost Hne Hd Hm. unfold Risk.risk_of_text, strip.
  rewrite strip_with_sandwich by auto using digits_trimmed.
  assert (E := int_digits m [] ds [] eq_refl eq_refl Hne Hd Hm).
  simpl in E. rewrite app_nil_r in E. rewrite E. reflexivity.
Qed.

Lemma risk_of_text_stray m t c :
  In c (strip t) -> isdecimal c = false ->
  c <> "_"%char -> c <> "+"%char -> c <> "-"%char ->
  Risk.risk_of_text m t = 50%Z.
Proof.
  intros Hin Hd Hu Hp Hn. unfold Risk.risk_of_text.
  rewrite (int_stray m (strip t) c); auto. rewrite strip_idem. assumption.
Qed.

End RiskFacts.
Import RiskFacts.

(** ** The score and the numerals *)

Module NumeralFacts.
Import Risk RiskFacts.

Lemma decimal_not_underscore c : isdecimal c = true -> Ascii.eqb c "_" = false.
Proof.
  destruct c as [[] [] [] [] [] [] [] []]; vm_compute; congruence.
Qed.

Lemma decimal_snoc ds c :
  decimal (ds ++ [c]) = (10 * decimal ds + digit c)%Z.
Proof. unfold decimal. rewrite fold_left_app. reflexivity. Qed.

(** A character that is no digit spoils its group. *)
Lemma groups_from_spoiled s : forall g,
  forallb isdecimal g = false ->
  forallb group_ok (groups_from g s) = false.
Proof.
  induction s as [|c s IH]; intros g Hg; cbn [groups_from].
  - cbn [forallb]. unfold group_ok. destruct g; [discriminate|].
    rewrite Hg. reflexivity.
  - destruct (Ascii.eqb c "_").
    + cbn [forallb]. unfold group_ok at 1. destruct g; [reflexivity|].
      rewrite Hg. reflexivity.
    + apply IH. rewrite forallb_app, Hg. reflexivity.
Qed.

(** [digits_value] reads the groups: [g] is the group that it is in,
    [acc] the digits of the groups before. *)
Lemma digits_value_groups s : forall g acc,
  forallb isdecimal g = true ->
  digits_value (match g with [] => false | _ :: _ => true end)
    (decimal (acc ++ g)) (length (acc ++ g)) s
  = if forallb group_ok (groups_from g s)
    then Some (decimal (acc ++ concat (groups_from g s)),
               length (acc ++ concat (groups_from g s)))
    else None.
Proof.
  induction s as [|c s IH]; intros g acc Hg.
  - cbn [groups_from forallb concat digits_value]. rewrite app_nil_r.
    unfold group_ok. destruct g; [reflexivity|]. rewrite Hg. reflexivity.
  - cbn [groups_from digits_value].
    destruct (isdecimal c) eqn:Hc.
    + rewrite (decimal_not_underscore c Hc).
      assert (Hg' : forallb isdecimal (g ++ [c]) = true).
      { rewrite forallb_app, Hg. cbn [forallb]. rewrite Hc. reflexivity. }
      rewrite <- (IH (g ++ [c]) acc Hg').
      rewrite (app_assoc acc g [c]), decimal_snoc.
      rewrite (length_app (acc ++ g) [c]). cbn [length].
      rewrite (Nat.add_1_r (length (acc ++ g))).
      destruct (g ++ [c]) eqn:E; [destruct g; discriminate|]. reflexivity.
    + destruct (Ascii.eqb c "_") eqn:Hu.
      * destruct g as [|a g].
        -- reflexivity.
        -- cbn [andb forallb concat]. unfold group_ok at 1. rewrite Hg.
           cbn [andb].
           rewrite (app_assoc acc (a :: g)).
           rewrite <- (IH [] (acc ++ a :: g) eq_refl).
           rewrite (app_nil_r (acc ++ a :: g)). reflexivity.
      * rewrite andb_false_l || cbn [andb].
        rewrite groups_from_spoiled; [reflexivity|].
        rewrite forallb_app. cbn [forallb]. rewrite Hc.
        rewrite andb_false_r. reflexivity.
Qed.

Lemma within_limit m count :
  Nat.ltb 0 m && Nat.ltb m count = negb (within m count).
Proof.
  unfold within.
  destruct (Nat.ltb_spec 0 m), (Nat.ltb_spec m count),
    (Nat.eqb_spec m 0), (Nat.leb_spec count m); try reflexivity; lia.
Qed.

(** What [int] makes of the digits is the unsigned numeral. *)
Lemma read_unsigned m negative body :
  read m negative body
  = option_map (fun n => if negative then (- n)%Z else n) (unsigned m body).
Proof.
  unfold read, unsigned.
  assert (E := digits_value_groups body [] [] eq_refl).
  cbn [app length] in E. change (decimal []) with 0%Z in E. rewrite E.
  destruct (forallb group_ok (groups_from [] body)); [|reflexivity].
  rewrite within_limit. cbn [andb].
  destruct (within m (length (concat (groups_from [] body)))); reflexivity.
Qed.

(** [int] reads the numerals, and nothing else. *)
Lemma int_numeral m s : int m s = numeral m (strip s).
Proof.
  unfold int, numeral.
  destruct (strip s) as [|c t].
  - reflexivity.
  - destruct (Ascii.eqb c "-").
    + fold (read m true t). rewrite read_unsigned. reflexivity.
    + destruct (Ascii.eqb c "+").
      * fold (read m false t). rewrite read_unsigned.
        destruct (unsigned m t); reflexivity.
      * fold (read m false (c :: t)). rewrite read_unsigned.
        destruct (unsigned m (c :: t)); reflexivity.
Qed.

Lemma risk_of_text_numeral m t :
  risk_of_text m t
  = match numeral m (strip t) with Some n => n | None => 50%Z end.
Proof.
  unfold risk_of_text. rewrite int_numeral, strip_idem. reflexivity.
Qed.

(** [gemini_explain] returns, whatever the request for the score gave. *)
Lemma scored_risk_of_call m text answer risk_call :
  scored m text answer risk_call (risk_of_call m risk_call).
Proof.
  unfold scored, gemini_explain. cbn [bind].
  destruct (parse_answer_Ok answer) as (d & ->). cbn [bind]. eauto.
Qed.

Lemma scored_text m text answer risk_text v :
  risk_of_text m risk_text = v -> scored m text answer (Ok risk_text) v.
Proof. intros <-. apply (scored_risk_of_call m text answer (Ok risk_text)). Qed.

End NumeralFacts.
Import NumeralFacts.

(** C5: the risk of the document that [gemini_explain] returns is the
    integer that the trimmed text of the second answer denotes in base
    10, and 50 when the text denotes none or when the request failed;
    whatever the second request gave, [gemini_explain] returns.
    [max_str_digits] is the limit of the interpreter on the length of
    integer literals (none, or 640 and more). *)
Theorem risk_score_parsing (max_str_digits : nat) :
  max_str_digits = 0 \/ 640 <= max_str_digits ->
  forall text answer,
    let score := scored max_str_digits text answer in
    score (Ok (L "73")) 73%Z /\
    score (Ok (L "high")) 50%Z /\
    score (Ok (L "  42 
")) 42%Z /\
    (forall risk_text n,
        numeral max_str_digits (strip risk_text) = Some n ->
        score (Ok risk_text) n) /\
    (forall risk_text,
        numeral max_str_digits (strip risk_text) = None ->
        score (Ok risk_text) 50%Z) /\
    (forall pre digits post,
        forallb isspace pre = true -> forallb isspace post = true ->
        digits <> [] -> forallb isdecimal digits = true ->
        length digits <= 640 ->
        score (Ok (pre ++ digits ++ post)) (decimal digits)) /\
    (forall risk_text c,
        In c (strip risk_text) -> isdecimal c = false ->
        c <> "_"%char -> c <> "+"%char -> c <> "-"%char ->
        score (Ok risk_text) 50%Z) /\
    (forall risk_text, strip risk_text = [] -> score (Ok risk_text) 50%Z) /\
    score (Ok (L "12 units")) 50%Z /\
    score (Ok (L "7 3")) 50%Z /\
    score (Ok (L "5_")) 50%Z /\
    score (Ok (L "5__0")) 50%Z /\
    score (Ok (L "+-3")) 50%Z /\
    score (Ok (L "-")) 50%Z /\
    (forall e, score (Raise e) 50%Z) /\
    (forall risk_call, exists v, score risk_call v).
Proof.
  intros Hm text answer score.
  assert (Hdigits : forall pre digits post,
      forallb isspace pre = true -> forallb isspace post = true ->
      digits <> [] -> forallb isdecimal digits = true ->
      length digits <= 640 ->
      score (Ok (pre ++ digits ++ post)) (decimal digits)).
  { intros. apply scored_text.
    apply risk_of_text_digits; auto using limit_allows. }
  assert (Hstray : forall risk_text c,
      In c (strip risk_text) -> isdecimal c = false ->
      c <> "_"%char -> c <> "+"%char -> c <> "-"%char ->
      score (Ok risk_text) 50%Z).
  { intros. apply scored_text. eapply risk_of_text_stray; eauto. }
  repeat match goal with |- _ /\ _ => split end.
  - apply (Hdigits [] (L "73") []); try reflexivity;
      [discriminate | simpl; lia].
  - apply (Hstray _ "h"%char); try discriminate; [left|]; reflexivity.
  - apply (Hdigits (L "  ") (L "42") (L " 
")); try reflexivity; [discriminate | simpl; lia].
  - intros risk_text n Hn. apply scored_text.
    rewrite risk_of_text_numeral, Hn. reflexivity.
  - intros risk_text Hn. apply scored_text.
    rewrite risk_of_text_numeral, Hn. reflexivity.
  - exact Hdigits.
  - exact Hstray.
  - intros risk_text Ht. apply scored_text.
    rewrite risk_of_text_numeral, Ht. reflexivity.
  - apply (Hstray _ " "%char); try discriminate;
      [right; right; left|]; reflexivity.
  - apply (Hstray _ " "%char); try discriminate; [right; left|]; reflexivity.
  - apply scored_text. reflexivity.
  - apply scored_text. reflexivity.
  - apply scored_text. reflexivity.
  - apply scored_text. reflexivity.
  - intros e. apply (scored_risk_of_call max_str_digits text answer (Raise e)).
  - intros risk_call. eexists.
    apply (scored_risk_of_call max_str_digits text answer risk_call).
Qed.

Lemma risk_score_parsing_witness :
  scored 4300 (L "lease") (L "**1. Summary:** fine") (Ok (L "73")) 73%Z /\
  scored 4300 (L "lease") (L "**1. Summary:** fine") (Ok (L "high")) 50%Z /\
  scored 4300 (L "lease") (L "**1. Summary:** fine") (Ok (L "  42 
")) 42%Z.
Proof.
  assert (Hm : 4300 = 0 \/ 640 <= 4300) by (right; lia).
  assert (P := risk_score_parsing 4300 Hm (L "lease")
                 (L "**1. Summary:** fine")).
  cbv zeta in P. destruct P as (H1 & H2 & H3 & _). auto.
Defined.

(** C3, as the code has it: the risk field is the integer that [int]
    reads in the trimmed text, and 50 when [int] rejects it; nothing
    clamps it, so that it lies in [0, 100] exactly when the text is
    rejected or denotes an integer of that interval. *)
Theorem risk_field_unclamped (max_str_digits : nat)
    (text answer risk_text : str) :
  exists r v,
    gemini_explain max_str_digits text (Ok answer) (Ok risk_text) = Ok r /\
    DocumentResponse.risk r = Some v /\
    (Risk.int max_str_digits (strip risk_text) = None -> v = 50%Z) /\
    (forall n, Risk.int max_str_digits (strip risk_text) = Some n -> v = n) /\
    ((0 <= v <= 100)%Z <->
     (forall n, Risk.int max_str_digits (strip risk_text) = Some n ->
                (0 <= n <= 100)%Z)).
Proof.
  unfold gemini_explain. cbn [bind].
  destruct (parse_answer_Ok answer) as (d & ->). cbn [bind].
  eexists. exists (Risk.risk_of_text max_str_digits risk_text).
  split; [reflexivity|]. split; [reflexivity|].
  unfold Risk.risk_of_text.
  destruct (Risk.int max_str_digits (strip risk_text)) as [n|].
  - split; [discriminate|]. split; [congruence|].
    split; [congruence|]. intros H; apply H; reflexivity.
  - split; [reflexivity|]. split; [discriminate|].
    split; [discriminate|]. lia.
Qed.

(** C3 fails as stated: the answer 150 of the model becomes the risk
    field as it is. *)
Lemma risk_field_out_of_range :
  exists r,
    gemini_explain 4300 (L "lease") (Ok (L "**1. Summary:** fine"))
      (Ok (L "150")) = Ok r /\
    DocumentResponse.risk r = Some 150%Z /\
    ~ (0 <= 150 <= 100)%Z.
Proof.
  eexists. split; [vm_compute; reflexivity|]. split; [reflexivity|]. lia.
Qed.

(** ** Classification of the labels *)

Module ClassifyFacts.

Lemma get_initial f : get f initial = empty f.
Proof. destruct f; reflexivity. Qed.

Lemma get_store_same d f text : get f (store d f text) = derive f text.
Proof. destruct f; reflexivity. Qed.

Lemma get_store_other d f g text : f <> g -> get f (store d g text) = get f d.
Proof. destruct f, g; intros H; try reflexivity; contradiction. Qed.

(** The [if]/[elif] chain of the loop is the first applicable rule. *)
Lemma loop_body_feed sections d i name text :
  index sections i = Ok name -> index sections (i + 1) = Ok text ->
  loop_body sections d i = Ok (feed d (name, text)).
Proof.
  intros Hname Htext. unfold loop_body. rewrite Hname. cbn [bind].
  rewrite Htext. cbn [bind]. f_equal.
  unfold feed, classify, rules, applies. cbn [fst snd find existsb].
  rewrite !orb_false_r.
  destruct (contains (L "explanation") (lower (strip name))
            || contains (L "explain") (lower (strip name))); [reflexivity|].
  destruct (contains (L "summary") (lower (strip name))); [reflexivity|].
  destruct (contains (L "key point") (lower (strip name))); [reflexivity|].
  destruct (contains (L "risk") (lower (strip name))); [reflexivity|].
  destruct (contains (L "recommendation") (lower (strip name))); reflexivity.
Qed.

Lemma pairs_ind (P : list str -> Prop) :
  P [] -> (forall a, P [a]) -> (forall a b l, P l -> P (a :: b :: l)) ->
  forall l, P l.
Proof.
  intros H0 H1 H2.
  assert (H : forall l, P l /\ forall a, P (a :: l)).
  { induction l as [|b l [IH1 IH2]]; split; auto. }
  intros l. apply H.
Qed.

Lemma headings_length pieces :
  Nat.even (length pieces) = true -> length pieces = 2 * length (headings pieces).
Proof.
  induction pieces as [| a | a b l IH] using pairs_ind; simpl.
  - reflexivity.
  - discriminate.
  - intros H. rewrite IH by exact H. lia.
Qed.

Lemma index_app sections rest x :
  index (sections ++ x :: rest) (length sections) = Ok x.
Proof.
  unfold index. rewrite nth_error_app2 by lia. rewrite Nat.sub_diag.
  reflexivity.
Qed.

(** The loop over the odd indices reads the pairs in their order. *)
Lemma for_each_headings rest : forall before d,
  for_each (loop_body (before ++ rest)) d
    (range_from (length (headings rest)) (length before) 2)
  = Ok (fold_left feed (headings rest) d).
Proof.
  induction rest as [| a | a b l IH] using pairs_ind; intros before d;
    try reflexivity.
  cbn [headings length range_from for_each fold_left].
  rewrite (loop_body_feed _ _ _ a b).
  - cbn [bind]. specialize (IH (before ++ [a; b]) (feed d (a, b))).
    rewrite <- app_assoc in IH. cbn [app] in IH.
    rewrite length_app in IH. cbn [length] in IH. exact IH.
  - apply index_app.
  - replace (before ++ a :: b :: l) with ((before ++ [a]) ++ b :: l)
      by (rewrite <- app_assoc; reflexivity).
    replace (length before + 1) with (length (before ++ [a]))
      by (rewrite length_app; reflexivity).
    apply index_app.
Qed.

Lemma parse_sections_fold first rest :
  Nat.even (length rest) = true ->
  parse_sections (first :: rest) = Ok (fold_left feed (headings rest) initial).
Proof.
  intros Heven. unfold parse_sections, range.
  replace ((length (first :: rest) - 1 + (2 - 1)) / 2)
    with (length (headings rest)).
  - apply (for_each_headings rest [first] initial).
  - assert (E := headings_length rest Heven).
    apply Nat.div_unique with 1; [lia|]. cbn [length]. lia.
Qed.

(** The parser feeds the headings of the answer, in their order, to the
    initial [data_map]. *)
Lemma parse_answer_fold answer :
  parse_answer answer = Ok (fold_left feed (headings_of answer) initial).
Proof.
  unfold parse_answer, headings_of.
  assert (Hodd := re_split_odd answer).
  destruct (re_split answer) as [|first rest]; [discriminate|].
  apply parse_sections_fold. cbn [length] in Hodd.
  rewrite Nat.odd_succ in Hodd. exact Hodd.
Qed.

Lemma fold_untouched f hs : forall d,
  (forall name text, In (name, text) hs -> classify name <> Some f) ->
  get f (fold_left feed hs d) = get f d.
Proof.
  induction hs as [|[name text] hs IH]; intros d H; simpl; [reflexivity|].
  rewrite IH by (intros n t Hin; apply (H n t); right; assumption).
  unfold feed. cbn [fst snd].
  destruct (classify name) as [g|] eqn:E; [|reflexivity].
  apply get_store_other. intros ->. apply (H name text); [left; reflexivity|].
  exact E.
Qed.

Lemma fold_last f before name text after d :
  classify name = Some f ->
  (forall name' text', In (name', text') after -> classify name' <> Some f) ->
  get f (fold_left feed (before ++ (name, text) :: after) d) = derive f text.
Proof.
  intros Hf Hafter. rewrite fold_left_app. cbn [fold_left].
  rewrite fold_untouched by exact Hafter.
  unfold feed. cbn [fst snd]. rewrite Hf. apply get_store_same.
Qed.

End ClassifyFacts.
Import ClassifyFacts.

(** ** Headings in the text *)

Module HeadingFacts.

Lemma occurs_heading_later name prefix s :
  occurs_heading name s -> occurs_heading name (prefix ++ s).
Proof.
  intros (before & digits & spaces & after & -> & H).
  exists (prefix ++ before), digits, spaces, after.
  rewrite <- app_assoc. auto.
Qed.

Lemma split_from_cons piece s :
  exists first rest, split_from piece s = first :: rest.
Proof.
  assert (H := split_from_odd piece s).
  destruct (split_from piece s) as [|first rest]; [discriminate|eauto].
Qed.

(** Every label that the segmentation gives comes from a heading of the
    text. *)
Lemma split_headings_occur : forall piece s name text,
  In (name, text) (headings (tl (split_from piece s))) ->
  occurs_heading name s.
Proof.
  apply (scan_ind (fun piece s => forall name text,
    In (name, text) (headings (tl (split_from piece s))) ->
    occurs_heading name s)).
  - intros piece s label rest Hm IH name text.
    rewrite split_from_eq, Hm. cbn [tl].
    destruct (split_from_cons [] rest) as (first & more & E).
    rewrite E in *. cbn [tl headings] in *. intros [Heq | Hin].
    + injection Heq as <- <-.
      destruct (match_heading_inv _ _ _ Hm) as (digits & spaces & -> & H).
      exists [], digits, spaces, rest. auto.
    + destruct (match_heading_inv _ _ _ Hm) as (digits & spaces & -> & _).
      specialize (IH _ _ Hin).
      repeat rewrite app_assoc. apply occurs_heading_later. exact IH.
  - intros piece name text. rewrite split_from_eq. simpl. contradiction.
  - intros piece c s Hm IH name text. rewrite split_from_eq, Hm.
    intros Hin. apply (occurs_heading_later name [c] s). eauto.
Qed.

Lemma headings_of_occur answer name text :
  In (name, text) (headings_of answer) -> occurs_heading name answer.
Proof. apply split_headings_occur. Qed.

Lemma isspace_lower c : isspace (lower_char c) = isspace c.
Proof. destruct c as [[] [] [] [] [] [] [] []]; reflexivity. Qed.

Lemma lstrip_lower s :
  lstrip_with isspace (lower s) = lower (lstrip_with isspace s).
Proof.
  induction s as [|c s IH]; simpl; [reflexivity|].
  rewrite isspace_lower. destruct (isspace c); [exact IH|reflexivity].
Qed.

Lemma rev_lower s : rev (lower s) = lower (rev s).
Proof. symmetry. apply map_rev. Qed.

Lemma strip_lower s : strip (lower s) = lower (strip s).
Proof.
  unfold strip, strip_with, rstrip_with.
  rewrite lstrip_lower, rev_lower, lstrip_lower, rev_lower. reflexivity.
Qed.

(** Labels that differ by case only feed the same field. *)
Lemma classify_case label label' :
  lower label = lower label' -> classify label = classify label'.
Proof.
  intros H. unfold classify. rewrite <- !strip_lower, H. reflexivity.
Qed.

Lemma fold_unclassified hs : forall d,
  (forall name text, In (name, text) hs -> classify name = None) ->
  fold_left feed hs d = d.
Proof.
  induction hs as [|[name text] hs IH]; intros d H; simpl; [reflexivity|].
  unfold feed at 2. cbn [fst snd].
  rewrite (H name text) by (left; reflexivity).
  apply IH. intros n t Hin. apply (H n t). right; assumption.
Qed.

End HeadingFacts.
Import HeadingFacts.

(** C7: a field for which the answer has no heading keeps its empty
    value, and the parser does not raise.  The absence is stated on the
    headings that the segmentation finds, then on the text of the answer;
    an answer none of whose headings is recognized gives the initial
    [data_map]. *)
Theorem missing_heading_keeps_default (answer : str) (f : field) :
  ((forall name text,
       In (name, text) (headings_of answer) -> classify name <> Some f) ->
   exists d, parse_answer answer = Ok d /\ get f d = empty f) /\
  ((forall name, occurs_heading name answer -> classify name <> Some f) ->
   exists d, parse_answer answer = Ok d /\ get f d = empty f) /\
  ((forall name text,
       In (name, text) (headings_of answer) -> classify name = None) ->
   parse_answer answer = Ok initial).
Proof.
  assert (H1 : (forall name text,
       In (name, text) (headings_of answer) -> classify name <> Some f) ->
     exists d, parse_answer answer = Ok d /\ get f d = empty f).
  { intros H. eexists. split; [apply parse_answer_fold|].
    rewrite fold_untouched by exact H. apply get_initial. }
  split; [exact H1|]. split.
  - intros H. apply H1. intros name text Hin. apply H.
    apply (headings_of_occur answer name text Hin).
  - intros H. rewrite parse_answer_fold, fold_unclassified by exact H.
    reflexivity.
Qed.

Lemma missing_heading_keeps_default_witness :
  exists d,
    parse_answer (L "**1. Explanation:** A lease.
**2. Legal References:** Civil Code") = Ok d /\
    get Risks d = empty Risks.
Proof.
  apply (proj1 (missing_heading_keeps_default _ Risks)).
  intros name text Hin. vm_compute in Hin.
  destruct Hin as [E | [E | []]]; injection E as <- <-;
    vm_compute; discriminate.
Defined.

(** ** The case of the letters *)

Module CaseFacts.

Lemma every_ascii (f : ascii -> bool) :
  forallb f (map ascii_of_nat (seq 0 256)) = true -> forall c, f c = true.
Proof.
  intros H c. rewrite forallb_forall in H. apply H.
  rewrite <- (ascii_nat_embedding c). apply in_map. apply in_seq.
  assert (Hc := nat_ascii_bounded c). lia.
Qed.

Lemma every_pair (f : ascii -> ascii -> bool) :
  forallb (fun c => forallb (f c) (map ascii_of_nat (seq 0 256)))
    (map ascii_of_nat (seq 0 256)) = true ->
  forall c a, f c a = true.
Proof.
  intros H c a.
  apply (every_ascii (f c)).
  apply (every_ascii (fun c => forallb (f c) (map ascii_of_nat (seq 0 256)))).
  exact H.
Qed.

(** For a small letter or a space [a], [lower_char] gives [a] exactly
    for [a] and for its capital. *)
Lemma lower_char_same c a :
  letter a || Ascii.eqb a " " = true ->
  Ascii.eqb (lower_char c) a = same_letter c a.
Proof.
  intros Ha.
  assert (H := every_pair (fun c a =>
    implb (letter a || Ascii.eqb a " ")
      (Bool.eqb (Ascii.eqb (lower_char c) a) (same_letter c a)))
    ltac:(vm_compute; reflexivity) c a).
  cbv beta in H. rewrite Ha in H. cbn [implb] in H.
  apply Bool.eqb_prop. exact H.
Qed.

(** Characters that are the same letter have the same small letter. *)
Lemma same_letter_lower c d :
  same_letter c d = true -> lower_char c = lower_char d.
Proof.
  intros Hs.
  assert (H := every_pair (fun c d =>
    implb (same_letter c d) (Ascii.eqb (lower_char c) (lower_char d)))
    ltac:(vm_compute; reflexivity) c d).
  cbv beta in H. rewrite Hs in H. cbn [implb] in H.
  apply Ascii.eqb_eq. exact H.
Qed.

Lemma space_not_letter c a :
  isspace c = true -> letter a = true -> same_letter c a = false.
Proof.
  intros Hc Ha.
  assert (H := every_pair (fun c a =>
    implb (isspace c && letter a) (negb (same_letter c a)))
    ltac:(vm_compute; reflexivity) c a).
  cbv beta in H. rewrite Hc, Ha in H. cbn [andb implb] in H.
  apply negb_true_iff. exact H.
Qed.

Lemma startswith_lower w : forall s,
  forallb (fun c => letter c || Ascii.eqb c " ") w = true ->
  startswith (lower s) w = starts_nocase s w.
Proof.
  induction w as [|a w IH]; intros s Hw; [reflexivity|].
  cbn [forallb] in Hw. apply andb_true_iff in Hw. destruct Hw as [Ha Hw].
  destruct s as [|c s]; [reflexivity|].
  cbn [lower map startswith starts_nocase].
  rewrite (lower_char_same c a Ha). f_equal. apply (IH s Hw).
Qed.

(** [w in s.lower()] is the occurrence of [w] in [s], the case apart. *)
Lemma contains_lower w s :
  forallb (fun c => letter c || Ascii.eqb c " ") w = true ->
  contains w (lower s) = occurs_nocase w s.
Proof.
  intros Hw. induction s as [|c s IH].
  - cbn [lower map contains occurs_nocase].
    rewrite <- (startswith_lower w [] Hw). reflexivity.
  - cbn [contains occurs_nocase].
    rewrite <- (startswith_lower w (c :: s) Hw).
    change (lower (c :: s)) with (lower_char c :: lower s).
    cbn [contains]. rewrite IH. reflexivity.
Qed.

(** Whitespace before a text holds no part of a word. *)
Lemma occurs_nocase_after a w pre : forall s,
  letter a = true -> forallb isspace pre = true ->
  occurs_nocase (a :: w) (pre ++ s) = occurs_nocase (a :: w) s.
Proof.
  intros s Ha. induction pre as [|c pre IH]; intros Hpre; [reflexivity|].
  cbn [forallb] in Hpre. apply andb_true_iff in Hpre.
  destruct Hpre as [Hc Hpre].
  cbn [app occurs_nocase starts_nocase].
  rewrite (space_not_letter c a Hc Ha). cbn [andb orb]. apply IH, Hpre.
Qed.

Lemma starts_nocase_snoc w : forall a c t,
  letter a = true -> isspace c = true ->
  starts_nocase (t ++ [c]) (w ++ [a]) = starts_nocase t (w ++ [a]).
Proof.
  induction w as [|x w IH]; intros a c t Ha Hc.
  - destruct t as [|y t]; cbn [app starts_nocase].
    + rewrite (space_not_letter c a Hc Ha). reflexivity.
    + reflexivity.
  - destruct t as [|y t]; cbn [app starts_nocase].
    + destruct (w ++ [a]) eqn:E; [destruct w; discriminate|].
      cbn [starts_nocase]. apply andb_false_r.
    + rewrite (IH a c t Ha Hc). reflexivity.
Qed.

Lemma occurs_nocase_snoc w a c : forall s,
  letter a = true -> isspace c = true ->
  occurs_nocase (w ++ [a]) (s ++ [c]) = occurs_nocase (w ++ [a]) s.
Proof.
  intros s Ha Hc. induction s as [|y s IH].
  - assert (E := starts_nocase_snoc w a c [] Ha Hc).
    cbn [app] in *. cbn [occurs_nocase]. rewrite E.
    destruct (starts_nocase [] (w ++ [a])); reflexivity.
  - assert (E := starts_nocase_snoc w a c (y :: s) Ha Hc).
    cbn [app] in *. cbn [occurs_nocase]. rewrite E, IH. reflexivity.
Qed.

(** Whitespace after a text holds no part of a word. *)
Lemma occurs_nocase_before w a post : forall s,
  letter a = true -> forallb isspace post = true ->
  occurs_nocase (w ++ [a]) (s ++ post) = occurs_nocase (w ++ [a]) s.
Proof.
  induction post as [|c post IH]; intros s Ha Hpost.
  - rewrite app_nil_r. reflexivity.
  - cbn [forallb] in Hpost. apply andb_true_iff in Hpost.
    destruct Hpost as [Hc Hpost].
    replace (s ++ c :: post) with ((s ++ [c]) ++ post)
      by (rewrite <- app_assoc; reflexivity).
    rewrite (IH (s ++ [c]) Ha Hpost). apply occurs_nocase_snoc; assumption.
Qed.

(** The words of the rules occur in a label as they occur in the
    trimmed label. *)
Lemma occurs_nocase_strip w s :
  wordlike w = true -> occurs_nocase w (strip s) = occurs_nocase w s.
Proof.
  unfold wordlike. intros H.
  apply andb_true_iff in H. destruct H as [H Hlast].
  apply andb_true_iff in H. destruct H as [_ Hfirst].
  destruct (strip_with_decomp isspace s) as (pre & post & E & Hpre & Hpost).
  fold (strip s) in E. rewrite E at 2.
  destruct w as [|a w]; [discriminate|].
  rewrite (occurs_nocase_after a w pre _ Hfirst Hpre).
  destruct (rev (a :: w)) as [|z u] eqn:Er; [discriminate|].
  assert (Ew : a :: w = rev u ++ [z]).
  { rewrite <- (rev_involutive (a :: w)), Er. reflexivity. }
  rewrite Ew. symmetry. apply occurs_nocase_before; assumption.
Qed.

Lemma contains_occurs_nocase w label :
  wordlike w = true ->
  contains w (lower (strip label)) = occurs_nocase w label.
Proof.
  intros H. rewrite contains_lower.
  - apply occurs_nocase_strip, H.
  - unfold wordlike in H. apply andb_true_iff in H. destruct H as [H _].
    apply andb_true_iff in H. destruct H as [H _]. exact H.
Qed.

Lemma existsb_ext_in {A} (f g : A -> bool) l :
  (forall x, In x l -> f x = g x) -> existsb f l = existsb g l.
Proof.
  induction l as [|x l IH]; intros H; [reflexivity|]. cbn [existsb].
  rewrite (H x) by (left; reflexivity).
  rewrite IH by (intros y Hy; apply H; right; exact Hy). reflexivity.
Qed.

Lemma rules_wordlike :
  forallb (fun rule => forallb wordlike (fst rule)) rules = true.
Proof. vm_compute. reflexivity. Qed.

Lemma applies_nocase_eq label rule :
  In rule rules ->
  applies (lower (strip label)) rule = applies_nocase label rule.
Proof.
  intros Hin. unfold applies, applies_nocase. apply existsb_ext_in.
  intros word Hword. apply contains_occurs_nocase.
  assert (H := rules_wordlike). rewrite forallb_forall in H.
  specialize (H rule Hin). rewrite forallb_forall in H. apply H, Hword.
Qed.

Lemma find_ext_in {A} (f g : A -> bool) l :
  (forall x, In x l -> f x = g x) -> find f l = find g l.
Proof.
  induction l as [|x l IH]; intros H; [reflexivity|]. cbn [find].
  rewrite (H x) by (left; reflexivity).
  rewrite IH by (intros y Hy; apply H; right; exact Hy). reflexivity.
Qed.

(** The classification of the loop is the case-insensitive one. *)
Lemma classify_field_of label : classify label = field_of label.
Proof.
  unfold classify, field_of. f_equal. apply find_ext_in.
  intros rule Hin. apply applies_nocase_eq, Hin.
Qed.

Lemma find_first {A} (f : A -> bool) before x after :
  f x = true -> (forall y, In y before -> f y = false) ->
  find f (before ++ x :: after) = Some x.
Proof.
  intros Hx. induction before as [|y before IH]; intros H; cbn [app find].
  - rewrite Hx. reflexivity.
  - rewrite (H y) by (left; reflexivity).
    apply IH. intros z Hz. apply H. right; exact Hz.
Qed.

Lemma find_none {A} (f : A -> bool) l :
  (forall y, In y l -> f y = false) -> find f l = None.
Proof.
  induction l as [|y l IH]; intros H; cbn [find]; [reflexivity|].
  rewrite (H y) by (left; reflexivity).
  apply IH. intros z Hz. apply H. right; exact Hz.
Qed.

Lemma applies_nocase_true label words (f : field) word :
  In word words -> occurs_nocase word label = true ->
  applies_nocase label (words, f) = true.
Proof.
  intros Hin Ho. unfold applies_nocase. cbn [fst].
  apply existsb_exists. exists word. auto.
Qed.

Lemma applies_nocase_false label words (f : field) :
  (forall word, In word words -> occurs_nocase word label = false) ->
  applies_nocase label (words, f) = false.
Proof.
  intros H. unfold applies_nocase. cbn [fst].
  destruct (existsb (fun word => occurs_nocase word label) words) eqn:E;
    [|reflexivity].
  apply existsb_exists in E. destruct E as (word & Hin & Ho).
  rewrite (H word Hin) in Ho. discriminate.
Qed.

(** The first rule that applies gives the field. *)
Lemma field_of_first label before words f after :
  rules = before ++ (words, f) :: after ->
  (exists word, In word words /\ occurs_nocase word label = true) ->
  (forall words' f' word,
      In (words', f') before -> In word words' ->
      occurs_nocase word label = false) ->
  field_of label = Some f.
Proof.
  intros Hrules (word & Hin & Ho) Hbefore. unfold field_of.
  rewrite Hrules.
  rewrite (find_first _ before (words, f) after).
  - reflexivity.
  - apply (applies_nocase_true label words f word Hin Ho).
  - intros [words' f'] Hy. apply applies_nocase_false.
    intros word' Hw. apply (Hbefore words' f' word' Hy Hw).
Qed.

Lemma field_of_none label :
  (forall words f word,
      In (words, f) rules -> In word words ->
      occurs_nocase word label = false) ->
  field_of label = None.
Proof.
  intros H. unfold field_of. rewrite find_none; [reflexivity|].
  intros [words f] Hy. apply applies_nocase_false.
  intros word Hw. apply (H words f word Hy Hw).
Qed.

Lemma lower_same_letters label label' :
  Forall2 (fun c d => same_letter c d = true) label label' ->
  lower label = lower label'.
Proof.
  induction 1 as [|c d l l' Hcd _ IH]; [reflexivity|].
  cbn [lower map]. rewrite (same_letter_lower c d Hcd).
  f_equal. exact IH.
Qed.

(** Labels that differ by the case of their letters have the same
    field. *)
Lemma field_of_case label label' :
  Forall2 (fun c d => same_letter c d = true) label label' ->
  field_of label = field_of label'.
Proof.
  intros H. rewrite <- !classify_field_of.
  apply classify_case. apply lower_same_letters, H.
Qed.

Lemma loop_body_field_of sections d i name text :
  index sections i = Ok name -> index sections (i + 1) = Ok text ->
  loop_body sections d i
  = Ok (match field_of name with
        | Some f => store d f text
        | None => d
        end).
Proof.
  intros Hname Htext. rewrite (loop_body_feed sections d i name text Hname Htext).
  unfold feed. cbn [fst snd]. rewrite classify_field_of. reflexivity.
Qed.

End CaseFacts.
Import CaseFacts.

(** C8: the chain of tests of the loop gives a heading to the field of
    the first rule, in the order of the table, one of whose words is a
    part of the label, the case of the letters apart, and to no field
    when no rule has such a word; labels that differ by case only are
    classified alike; and among the headings of one field the last one
    decides. *)
Theorem classification_order_and_last_wins :
  (forall sections d i name text,
      index sections i = Ok name -> index sections (i + 1) = Ok text ->
      loop_body sections d i
      = Ok (match field_of name with
            | Some f => store d f text
            | None => d
            end)) /\
  (forall sections d i name text before words f after,
      index sections i = Ok name -> index sections (i + 1) = Ok text ->
      rules = before ++ (words, f) :: after ->
      (exists word, In word words /\ occurs_nocase word name = true) ->
      (forall words' f' word,
          In (words', f') before -> In word words' ->
          occurs_nocase word name = false) ->
      loop_body sections d i = Ok (store d f text)) /\
  (forall sections d i name text,
      index sections i = Ok name -> index sections (i + 1) = Ok text ->
      (forall words f word,
          In (words, f) rules -> In word words ->
          occurs_nocase word name = false) ->
      loop_body sections d i = Ok d) /\
  (forall sections sections' d i name name' text,
      index sections i = Ok name -> index sections (i + 1) = Ok text ->
      index sections' i = Ok name' -> index sections' (i + 1) = Ok text ->
      Forall2 (fun c c' => same_letter c c' = true) name name' ->
      loop_body sections d i = loop_body sections' d i) /\
  (forall answer before name text after f,
      headings_of answer = before ++ (name, text) :: after ->
      field_of name = Some f ->
      (forall name' text',
          In (name', text') after -> field_of name' <> Some f) ->
      exists d, parse_answer answer = Ok d /\ get f d = derive f text).
Proof.
  repeat match goal with |- _ /\ _ => split end.
  - apply loop_body_field_of.
  - intros sections d i name text before words f after Hn Ht Hr Hw Hb.
    rewrite (loop_body_field_of sections d i name text Hn Ht).
    rewrite (field_of_first name before words f after Hr Hw Hb).
    reflexivity.
  - intros sections d i name text Hn Ht H.
    rewrite (loop_body_field_of sections d i name text Hn Ht).
    rewrite (field_of_none name H). reflexivity.
  - intros sections sections' d i name name' text Hn Ht Hn' Ht' Hc.
    rewrite (loop_body_field_of sections d i name text Hn Ht).
    rewrite (loop_body_field_of sections' d i name' text Hn' Ht').
    rewrite (field_of_case name name' Hc). reflexivity.
  - intros answer before name text after f Hs Hf Hafter.
    eexists. split; [apply parse_answer_fold|].
    rewrite Hs. apply fold_last.
    + rewrite classify_field_of. exact Hf.
    + intros name' text' Hin. rewrite classify_field_of.
      apply (Hafter name' text' Hin).
Qed.

Lemma classification_order_and_last_wins_witness :
  exists d,
    parse_answer (L "**1. SUMMARY:** first
**2. Risk Summary:** second
**3. RISKS:** * late") = Ok d /\
    get Summary d = Text (L "second").
Proof.
  destruct classification_order_and_last_wins as (_ & _ & _ & _ & H).
  apply (H _ [(L "SUMMARY", L " first
")] (L "Risk Summary") (L " second
") [(L "RISKS", L " * late")] Summary).
  - vm_compute. reflexivity.
  - vm_compute. reflexivity.
  - intros name' text' [E | []]. injection E as <- <-.
    vm_compute. discriminate.
Defined.

(** ** The bulleted lines *)

Module BulletFacts.

Lemma forallb_impl (p q : ascii -> bool) s :
  (forall c, p c = true -> q c = true) ->
  forallb p s = true -> forallb q s = true.
Proof.
  intros Hpq. induction s as [|c s IH]; simpl; [reflexivity|].
  intros H. apply andb_true_iff in H. destruct H as [Hc Hs].
  rewrite (Hpq _ Hc), (IH Hs). reflexivity.
Qed.

Lemma mem_junk c : mem (L "* ") c = true -> junk c = true.
Proof.
  unfold junk. cbn. rewrite orb_false_r.
  destruct (Ascii.eqb c "*"); [reflexivity|]. simpl.
  destruct (Ascii.eqb_spec c " ") as [->|]; [reflexivity|discriminate].
Qed.

Lemma isspace_junk c : isspace c = true -> junk c = true.
Proof. unfold junk. intros ->. apply orb_true_r. Qed.

Lemma Forall2_map_right {A B} (R : A -> B -> Prop) (g : A -> B) l :
  (forall x, R x (g x)) -> Forall2 R l (map g l).
Proof. intros H. induction l; simpl; constructor; auto. Qed.

End BulletFacts.
Import BulletFacts.

(** ** The cleaned lines *)

Module CleanFacts.

Lemma mem_mark c : mem (L "* ") c = mark c.
Proof.
  unfold mark. cbn. rewrite orb_false_r. reflexivity.
Qed.

Lemma starts_clean_ext (p q : ascii -> bool) s :
  (forall c, p c = q c) -> starts_clean p s = starts_clean q s.
Proof. intros H. destruct s as [|c s]; cbn; [reflexivity|]. rewrite H. reflexivity. Qed.

Lemma trimmed_ext (p q : ascii -> bool) s :
  (forall c, p c = q c) -> trimmed p s = trimmed q s.
Proof.
  intros H. unfold trimmed.
  rewrite (starts_clean_ext p q s H), (starts_clean_ext p q (rev s) H).
  reflexivity.
Qed.

Lemma forallb_ext_all (p q : ascii -> bool) s :
  (forall c, p c = q c) -> forallb p s = forallb q s.
Proof.
  intros H. induction s as [|c s IH]; cbn [forallb]; [reflexivity|].
  rewrite H, IH. reflexivity.
Qed.

(** The entry that the comprehension makes of a line is the line
    cleaned. *)
Lemma cleaned_entry line :
  cleaned line (strip (strip_chars (L "* ") line)).
Proof.
  destruct (strip_with_decomp (mem (L "* ")) line)
    as (marks & marks' & E1 & Hm & Hm').
  destruct (strip_with_decomp isspace (strip_chars (L "* ") line))
    as (spaces & spaces' & E2 & Hs & Hs').
  fold (strip_chars (L "* ") line) in E1.
  fold (strip (strip_chars (L "* ") line)) in E2.
  exists marks, spaces, spaces', marks'.
  repeat match goal with |- _ /\ _ => split end.
  - rewrite E1 at 1. rewrite E2 at 1. repeat rewrite <- app_assoc.
    reflexivity.
  - rewrite <- (forallb_ext_all _ _ marks mem_mark). exact Hm.
  - rewrite <- (forallb_ext_all _ _ marks' mem_mark). exact Hm'.
  - exact Hs.
  - exact Hs'.
  - rewrite <- E2. rewrite <- (trimmed_ext _ _ _ mem_mark).
    apply strip_with_trimmed.
  - apply strip_with_trimmed.
Qed.

(** A line has one cleaned form. *)
Lemma cleaned_unique line entry :
  cleaned line entry -> entry = strip_with isspace (strip_with mark line).
Proof.
  intros (marks & spaces & spaces' & marks' & E & Hm & Hm' & Hs & Hs' & Ht & He).
  rewrite E.
  replace (marks ++ spaces ++ entry ++ spaces' ++ marks')
    with (marks ++ (spaces ++ entry ++ spaces') ++ marks')
    by (repeat rewrite <- app_assoc; reflexivity).
  rewrite (strip_with_sandwich mark marks _ marks' Hm Hm' Ht).
  rewrite (strip_with_sandwich isspace spaces entry spaces' Hs Hs' He).
  reflexivity.
Qed.

Lemma plain_space_mark c :
  plain_space c = true -> isspace c = true -> mark c = true.
Proof.
  unfold plain_space, mark. intros H Hc. rewrite Hc in H. cbn in H.
  rewrite H. apply orb_true_r.
Qed.

(** Whitespace that is made of spaces cannot start a text that is
    trimmed of asterisks and spaces. *)
Lemma no_plain_spaces spaces rest :
  forallb isspace spaces = true -> forallb plain_space spaces = true ->
  starts_clean mark (spaces ++ rest) = true -> spaces = [].
Proof.
  destruct spaces as [|c spaces]; [reflexivity|].
  cbn [forallb app starts_clean]. intros Hs Hp Hc.
  apply andb_true_iff in Hs. apply andb_true_iff in Hp.
  rewrite (plain_space_mark c) in Hc by tauto. discriminate.
Qed.

Lemma starts_clean_junk s :
  starts_clean mark s = true -> starts_clean isspace s = true ->
  starts_clean junk s = true.
Proof.
  destruct s as [|c s]; [reflexivity|]. cbn [starts_clean].
  unfold mark, junk. intros Hm Hs.
  apply negb_true_iff in Hm, Hs. apply orb_false_iff in Hm.
  destruct Hm as [Hm _]. rewrite Hm, Hs. reflexivity.
Qed.

(** In a line whose whitespace is made of spaces, the cleaned form has
    no asterisk and no whitespace at either end. *)
Lemma cleaned_plain line entry :
  cleaned line entry -> forallb plain_space line = true ->
  trimmed junk entry = true.
Proof.
  intros (marks & spaces & spaces' & marks' & E & Hm & Hm' & Hs & Hs' & Ht & He)
         Hp.
  rewrite E in Hp. repeat rewrite forallb_app in Hp.
  repeat (apply andb_true_iff in Hp; destruct Hp as [? Hp]).
  unfold trimmed in Ht. apply andb_true_iff in Ht. destruct Ht as [Ht1 Ht2].
  assert (E1 : spaces = []).
  { apply (no_plain_spaces spaces (entry ++ spaces')); assumption. }
  assert (E2 : rev spaces' = []).
  { apply (no_plain_spaces (rev spaces') (rev entry ++ rev spaces)).
    - rewrite forallb_rev. assumption.
    - rewrite forallb_rev. assumption.
    - rewrite !rev_app_distr, <- app_assoc in Ht2. exact Ht2. }
  apply (f_equal (@rev ascii)) in E2. rewrite rev_involutive in E2.
  cbn [rev] in E2. subst spaces spaces'.
  cbn [app] in Ht1, Ht2. rewrite app_nil_r in Ht1, Ht2.
  unfold trimmed in He. apply andb_true_iff in He. destruct He as [He1 He2].
  unfold trimmed.
  rewrite (starts_clean_junk entry Ht1 He1).
  rewrite (starts_clean_junk (rev entry) Ht2 He2). reflexivity.
Qed.

Lemma cleaned_not_empty line entry :
  cleaned line entry -> (exists c, In c line /\ junk c = false) ->
  entry <> [].
Proof.
  intros (marks & spaces & spaces' & marks' & E & Hm & Hm' & Hs & Hs' & _)
         (c & Hin & Hc) Hempty.
  subst entry. rewrite E in Hin. cbn [app] in Hin.
  assert (Hj : forall l, forallb mark l = true \/ forallb isspace l = true ->
                         In c l -> False).
  { intros l Hl Hl'. destruct Hl as [Hl | Hl];
      rewrite forallb_forall in Hl; specialize (Hl c Hl').
    - rewrite <- mem_mark in Hl. rewrite (mem_junk c Hl) in Hc. discriminate.
    - rewrite (isspace_junk c Hl) in Hc. discriminate. }
  apply in_app_or in Hin. destruct Hin as [Hin | Hin];
    [apply (Hj marks); auto|].
  apply in_app_or in Hin. destruct Hin as [Hin | Hin];
    [apply (Hj spaces); auto|].
  apply in_app_or in Hin. destruct Hin as [Hin | Hin];
    [apply (Hj spaces'); auto | apply (Hj marks'); auto].
Qed.

(** What the comprehension makes of one line. *)
Lemma entry_cleaned line :
  let entry := strip (strip_chars (L "* ") line) in
  cleaned line entry /\
  (forall entry', cleaned line entry' -> entry' = entry) /\
  ((exists c, In c line /\ junk c = false) -> entry <> []) /\
  (forallb plain_space line = true -> trimmed junk entry = true).
Proof.
  intros entry. assert (H := cleaned_entry line). fold entry in H.
  repeat match goal with |- _ /\ _ => split end.
  - exact H.
  - intros entry' H'. rewrite (cleaned_unique line entry' H').
    apply eq_sym, cleaned_unique, H.
  - apply cleaned_not_empty, H.
  - apply cleaned_plain, H.
Qed.

(** The loop gives to a list field the bulleted lines of the trimmed
    body. *)
Lemma loop_body_items sections d i name text f :
  index sections i = Ok name -> index sections (i + 1) = Ok text ->
  classify name = Some f -> In f [KeyPoints; Risks; Recommendations] ->
  exists d',
    loop_body sections d i = Ok d' /\
    get f d' = Items (bullet_lines (strip text)).
Proof.
  intros Hn Ht Hf Hin. exists (store d f text). split.
  - rewrite (loop_body_feed sections d i name text Hn Ht).
    unfold feed. cbn [fst snd]. rewrite Hf. reflexivity.
  - destruct Hin as [<- | [<- | [<- | []]]]; reflexivity.
Qed.

End CleanFacts.
Import CleanFacts.

(** C2, as the code has it: the list of a list field has one entry for
    each line of the trimmed body whose trimmed content starts with an
    asterisk, in the order of the lines.  The entry is the line cleaned:
    the asterisks and spaces of its two ends are taken off, then the
    whitespace of the two ends of what is left; a line has one cleaned
    form.  The entry is not empty when the line has a character that is
    neither an asterisk nor whitespace, and has no asterisk and no
    whitespace at either end when the whitespace of the line is made of
    spaces.  The loop stores this list in the field of the heading. *)
Theorem bullet_lines_kept_and_cleaned (body : str) :
  Forall2
    (fun line entry =>
       cleaned line entry /\
       (forall entry', cleaned line entry' -> entry' = entry) /\
       ((exists c, In c line /\ junk c = false) -> entry <> []) /\
       (forallb plain_space line = true -> trimmed junk entry = true))
    (filter (fun line => startswith (strip line) (L "*"))
            (splitlines (strip body)))
    (bullet_lines (strip body)) /\
  (forall sections d i name f,
      index sections i = Ok name -> index sections (i + 1) = Ok body ->
      classify name = Some f -> In f [KeyPoints; Risks; Recommendations] ->
      exists d',
        loop_body sections d i = Ok d' /\
        get f d' = Items (bullet_lines (strip body))).
Proof.
  split.
  - unfold bullet_lines. apply Forall2_map_right. apply entry_cleaned.
  - intros sections d i name f. apply loop_body_items.
Qed.

(** C2 fails as stated: a line that is a lone asterisk is kept and
    gives the empty string; and the asterisk of a line stays when
    whitespace other than spaces stands before it, as in a line that a
    tabulation indents. *)
Lemma bullet_entry_can_be_empty :
  exists d,
    parse_answer (L "**3. Key Points:**
* notice period
*
" ++ "009"%char :: L "* early termination") = Ok d /\
    key_points d = [L "notice period"; []; L "* early termination"] /\
    In [] (key_points d) /\
    In (L "* early termination") (key_points d).
Proof.
  eexists. split; [vm_compute; reflexivity|].
  split; [reflexivity|]. split.
  - right; left; reflexivity.
  - right; right; left; reflexivity.
Qed.

(** ** Scanning through a body *)

Module ScanFacts.

Lemma match_heading_first c s :
  not_asterisk c = true -> match_heading (c :: s) = None.
Proof.
  unfold not_asterisk, match_heading. simpl.
  destruct (Ascii.eqb c "*"); [discriminate|reflexivity].
Qed.

Lemma match_heading_second c c' s :
  not_asterisk c' = true -> match_heading (c :: c' :: s) = None.
Proof.
  unfold not_asterisk, match_heading. simpl.
  destruct (Ascii.eqb c' "*"); [discriminate|].
  destruct (Ascii.eqb c "*"); reflexivity.
Qed.

Lemma split_from_through body : forall piece rest,
  no_double_asterisk body = true ->
  split_from piece (body ++ rest) = split_from (piece ++ body) rest.
Proof.
  induction body as [|c body IH]; intros piece rest H.
  - rewrite app_nil_r. reflexivity.
  - cbn [no_double_asterisk] in H. apply andb_true_iff in H.
    destruct H as [Hc Hbody].
    assert (Hnone : match_heading ((c :: body) ++ rest) = None).
    { apply orb_true_iff in Hc. destruct Hc as [Hc | Hc].
      - apply match_heading_first; assumption.
      - destruct body as [|c' body]; [discriminate|].
        apply match_heading_second; assumption. }
    rewrite split_from_eq, Hnone. cbn [app].
    rewrite IH by assumption. rewrite <- app_assoc. reflexivity.
Qed.

Lemma no_asterisk_no_double s :
  forallb not_asterisk s = true -> no_double_asterisk s = true.
Proof.
  induction s as [|c s IH]; simpl; [reflexivity|].
  intros H. apply andb_true_iff in H. destruct H as [-> H]. auto.
Qed.

Lemma split_from_heading piece s label rest :
  match_heading s = Some (label, rest) ->
  split_from piece s = piece :: label :: split_from [] rest.
Proof. intros H. rewrite split_from_eq, H. reflexivity. Qed.

Lemma split_from_end piece : split_from piece [] = [piece].
Proof. rewrite split_from_eq. reflexivity. Qed.

(** A heading and its body, followed by the rest of the text. *)
Lemma split_from_section piece heading label body rest :
  (forall tail, match_heading (heading ++ tail) = Some (label, tail)) ->
  no_double_asterisk body = true ->
  split_from piece (heading ++ body ++ rest)
  = piece :: label :: split_from body rest.
Proof.
  intros Hheading Hbody.
  rewrite (split_from_heading _ _ _ _ (Hheading _)).
  rewrite split_from_through by assumption. reflexivity.
Qed.

Lemma space_not_asterisk c : isspace c = true -> not_asterisk c = true.
Proof.
  unfold not_asterisk. destruct (Ascii.eqb_spec c "*") as [->|];
    [discriminate|reflexivity].
Qed.

End ScanFacts.
Import ScanFacts.

(** ** A synthetic answer *)

Module SyntheticFacts.
Import Synthetic.

Lemma re_split_answer e s w :
  no_double_asterisk e = true -> no_double_asterisk s = true ->
  forallb isspace w = true ->
  re_split (answer e s w)
  = [ []; L "Explanation"; e; L "Summary"; s; L "Key Points";
      key_points_body; L "Risks"; w; L "Recommendations";
      recommendations_body ].
Proof.
  intros He Hs Hw.
  assert (Hw' : no_double_asterisk w = true).
  { apply no_asterisk_no_double.
    apply (forallb_impl isspace not_asterisk w space_not_asterisk Hw). }
  unfold re_split, answer.
  rewrite (split_from_section _ _ (L "Explanation")) by (auto; reflexivity).
  rewrite (split_from_section _ _ (L "Summary")) by (auto; reflexivity).
  rewrite (split_from_section _ _ (L "Key Points")) by (auto; reflexivity).
  rewrite (split_from_section _ _ (L "Risks")) by (auto; reflexivity).
  rewrite <- (app_nil_r recommendations_body).
  rewrite (split_from_section _ _ (L "Recommendations"))
    by (auto; reflexivity).
  rewrite split_from_end. reflexivity.
Qed.

Lemma parse_answer_synthetic e s w :
  no_double_asterisk e = true -> no_double_asterisk s = true ->
  forallb isspace w = true ->
  parse_answer (answer e s w)
  = Ok {| explanation := strip e;
          summary := strip s;
          key_points := [L "Rent is due monthly"; L "Deposit of two months"];
          risks := [];
          recommendations := [L "Ask for a cap on penalties"] |}.
Proof.
  intros He Hs Hw. unfold parse_answer.
  rewrite re_split_answer by assumption.
  rewrite parse_sections_fold by reflexivity.
  cbn [headings fold_left]. unfold feed. cbn [fst snd].
  change (classify (L "Explanation")) with (Some Explanation).
  change (classify (L "Summary")) with (Some Summary).
  change (classify (L "Key Points")) with (Some KeyPoints).
  change (classify (L "Risks")) with (Some Risks).
  change (classify (L "Recommendations")) with (Some Recommendations).
  cbn [store]. unfold strip at 4. rewrite (strip_with_all isspace w Hw).
  reflexivity.
Qed.

End SyntheticFacts.

(** C1: the answer with the five headings of the prompt, where the body
    of the key points has two lines that start with an asterisk and one
    that does not, the body of the risks is empty or blank, and the
    recommendations have one bulleted line.  The explanation and the
    summary are any texts in which no heading can start. *)
Theorem synthetic_answer_parsed (explanation_body summary_body risks_body : str) :
  no_double_asterisk explanation_body = true ->
  no_double_asterisk summary_body = true ->
  forallb isspace risks_body = true ->
  exists d,
    parse_answer (Synthetic.answer explanation_body summary_body risks_body)
    = Ok d /\
    explanation d = strip explanation_body /\
    summary d = strip summary_body /\
    key_points d = [L "Rent is due monthly"; L "Deposit of two months"] /\
    risks d = [] /\
    length (recommendations d) = 1.
Proof.
  intros He Hs Hw. eexists. split.
  - apply SyntheticFacts.parse_answer_synthetic; assumption.
  - repeat split.
Qed.

Lemma synthetic_answer_parsed_witness :
  exists d,
    parse_answer (L "**1. Explanation:** A lease of a flat in Tashkent.
**2. Summary:** One year, paid monthly.
**3. Key Points:**
* Rent is due monthly
See the annex for the amounts
* Deposit of two months
**4. Risks:****5. Recommendations:**
* Ask for a cap on penalties
") = Ok d /\
    explanation d = L "A lease of a flat in Tashkent." /\
    summary d = L "One year, paid monthly." /\
    key_points d = [L "Rent is due monthly"; L "Deposit of two months"] /\
    risks d = [] /\
    length (recommendations d) = 1.
Proof.
  apply (synthetic_answer_parsed (L " A lease of a flat in Tashkent.
") (L " One year, paid monthly.
") []); reflexivity.
Defined.

(** ** Where a heading can match *)

Module MatchFacts.

Lemma lit_app {R} w s (k : str -> option R) : lit w (w ++ s) k = k s.
Proof.
  induction w as [|a w IH]; simpl; [reflexivity|].
  rewrite Ascii.eqb_refl. exact IH.
Qed.

Lemma star_complete {R} p run : forall taken rest (k : str -> str -> option R),
  forallb p run = true -> k (taken ++ run) rest <> None ->
  star p taken (run ++ rest) k <> None.
Proof.
  induction run as [|c run IH]; intros taken rest k Hrun Hk.
  - rewrite app_nil_r in Hk. simpl. destruct rest as [|c rest]; simpl.
    + exact Hk.
    + destruct (p c); [|exact Hk].
      destruct (star p (taken ++ [c]) rest k); [discriminate|exact Hk].
  - simpl in Hrun. apply andb_true_iff in Hrun. destruct Hrun as [Hc Hrun].
    simpl. rewrite Hc.
    assert (H : star p (taken ++ [c]) (run ++ rest) k <> None).
    { apply IH; [assumption|]. rewrite <- app_assoc. exact Hk. }
    destruct (star p (taken ++ [c]) (run ++ rest) k); [discriminate|].
    contradiction.
Qed.

Lemma plus_complete {R} p run rest (k : str -> str -> option R) :
  run <> [] -> forallb p run = true -> k run rest <> None ->
  plus p (run ++ rest) k <> None.
Proof.
  destruct run as [|c run]; [contradiction|]. intros _ Hrun Hk.
  simpl in Hrun. apply andb_true_iff in Hrun. destruct Hrun as [Hc Hrun].
  simpl. rewrite Hc. apply star_complete; assumption.
Qed.

(** The matcher finds a heading where there is one. *)
Lemma match_heading_complete s : heading_at s -> match_heading s <> None.
Proof.
  intros (digits & spaces & label & rest & -> & Hd & Hdd & Hs & Hl & Hll).
  unfold match_heading. rewrite lit_app.
  apply plus_complete; [assumption..|]. rewrite lit_app.
  apply star_complete; [assumption|]. cbn [app].
  apply plus_complete; [assumption..|]. rewrite lit_app. discriminate.
Qed.

Lemma match_heading_sound s label rest :
  match_heading s = Some (label, rest) -> heading_at s.
Proof.
  intros H. destruct (match_heading_inv _ _ _ H) as (digits & spaces & E & F).
  exists digits, spaces, label, rest. auto.
Qed.

Lemma heading_at_longer s t : heading_at s -> heading_at (s ++ t).
Proof.
  intros (digits & spaces & label & rest & -> & H).
  exists digits, spaces, label, (rest ++ t).
  split; [|exact H]. repeat rewrite <- app_assoc. reflexivity.
Qed.

(** A heading that matches in a text matches when the text goes on. *)
Lemma match_heading_longer s t :
  match_heading (s ++ t) = None -> match_heading s = None.
Proof.
  intros H. destruct (match_heading s) as [[label rest]|] eqn:E;
    [|reflexivity].
  exfalso. apply (match_heading_complete (s ++ t)); [|exact H].
  apply heading_at_longer. apply (match_heading_sound _ _ _ E).
Qed.

(** *** A line feed and then an asterisk, or the end, stop a match *)

Lemma lit_local {R} w : forall u tail (k : str -> option R) r,
  forallb (fun a => negb (Ascii.eqb a "010")) w = true ->
  lit w (u ++ nl ++ tail) k = Some r ->
  exists u', u = w ++ u' /\ k (u' ++ nl ++ tail) = Some r.
Proof.
  induction w as [|a w IH]; intros u tail k r Hw H.
  - exists u. auto.
  - simpl in Hw. apply andb_true_iff in Hw. destruct Hw as [Ha Hw].
    destruct u as [|c u]; cbn [app nl lit] in H.
    + rewrite Ascii.eqb_sym in H. apply negb_true_iff in Ha.
      rewrite Ha in H. discriminate.
    + destruct (Ascii.eqb_spec c a) as [->|]; [|discriminate].
      destruct (IH _ _ _ _ Hw H) as (u' & -> & Hk). exists u'. auto.
Qed.

Lemma star_stops {R} p taken tail (k : str -> str -> option R) :
  p "*"%char = false -> tail_ok tail = true ->
  (forall t, k t tail = None) -> star p taken tail k = None.
Proof.
  intros Hp Htail Hk. destruct tail as [|c tail]; simpl; [apply Hk|].
  simpl in Htail. apply Ascii.eqb_eq in Htail. subst c.
  rewrite Hp. apply Hk.
Qed.

Lemma star_local {R} p u : forall taken tail (k : str -> str -> option R) r,
  p "*"%char = false -> tail_ok tail = true ->
  (forall t, k t tail = None) ->
  star p taken (u ++ nl ++ tail) k = Some r ->
  exists run u', u = run ++ u' /\ forallb p run = true /\
                 k (taken ++ run) (u' ++ nl ++ tail) = Some r.
Proof.
  induction u as [|c u IH]; intros taken tail k r Hp Htail Hk H.
  - exists [], []. rewrite (app_nil_r taken). split; [reflexivity|].
    split; [reflexivity|]. cbn [app nl] in *. simpl in H.
    rewrite (star_stops p _ tail k Hp Htail Hk) in H.
    destruct (p "010"%char); exact H.
  - cbn [app star] in H. destruct (p c) eqn:Hc.
    + destruct (star p (taken ++ [c]) (u ++ nl ++ tail) k) as [r'|] eqn:E.
      * injection H as <-.
        destruct (IH _ _ _ _ Hp Htail Hk E) as (run & u' & -> & Hrun & Hr).
        exists (c :: run), u'. simpl. rewrite Hc, Hrun.
        rewrite <- app_assoc in Hr. auto.
      * exists [], (c :: u). rewrite app_nil_r. auto.
    + exists [], (c :: u). rewrite app_nil_r. auto.
Qed.

Lemma plus_local {R} p u tail (k : str -> str -> option R) r :
  p "*"%char = false -> tail_ok tail = true ->
  (forall t, k t tail = None) ->
  plus p (u ++ nl ++ tail) k = Some r ->
  exists run u', u = run ++ u' /\ run <> [] /\ forallb p run = true /\
                 k run (u' ++ nl ++ tail) = Some r.
Proof.
  intros Hp Htail Hk H. destruct u as [|c u].
  - cbn [app nl] in H. simpl in H.
    rewrite (star_stops p _ tail k Hp Htail Hk) in H.
    destruct (p "010"%char); discriminate.
  - cbn [app plus] in H. destruct (p c) eqn:Hc; [|discriminate].
    destruct (star_local p u _ _ _ _ Hp Htail Hk H)
      as (run & u' & -> & Hrun & Hr).
    exists (c :: run), u'. simpl. rewrite Hc, Hrun.
    repeat split; auto. discriminate.
Qed.

Lemma lit_stops {R} a w tail (k : str -> option R) :
  tail_ok tail = true -> Ascii.eqb a "*" = false ->
  lit (a :: w) tail k = None.
Proof.
  intros Htail Ha. destruct tail as [|c tail]; [reflexivity|].
  simpl in Htail. apply Ascii.eqb_eq in Htail. subst c.
  cbn [lit]. rewrite Ascii.eqb_sym, Ha. reflexivity.
Qed.

(** A match in a text that ends with a line feed followed by an asterisk
    or by nothing lies before that line feed. *)
Lemma match_heading_local u tail label rest :
  tail_ok tail = true ->
  match_heading (u ++ nl ++ tail) = Some (label, rest) -> heading_at u.
Proof.
  intros Htail H. unfold match_heading in H.
  apply lit_local in H; [|reflexivity]. destruct H as (u1 & -> & H).
  apply plus_local in H; [|reflexivity|assumption|].
  2:{ intros t. apply (lit_stops "."%char []); [assumption|reflexivity]. }
  destruct H as (digits & u2 & -> & Hd & Hdd & H).
  apply lit_local in H; [|reflexivity]. destruct H as (u3 & -> & H).
  apply star_local in H; [|reflexivity|assumption|].
  2:{ intros t. destruct tail as [|c tail]; [reflexivity|].
      simpl in Htail. apply Ascii.eqb_eq in Htail. subst c. reflexivity. }
  destruct H as (spaces & u4 & -> & Hs & H).
  apply plus_local in H; [|reflexivity|assumption|].
  2:{ intros t. apply (lit_stops ":"%char (L "**")); [assumption|reflexivity]. }
  destruct H as (name & u5 & -> & Hn & Hnn & H).
  apply lit_local in H; [|reflexivity]. destruct H as (u6 & -> & H).
  exists digits, spaces, name, u6. auto 10.
Qed.

Lemma match_heading_before u tail :
  tail_ok tail = true -> match_heading u = None ->
  match_heading (u ++ nl ++ tail) = None.
Proof.
  intros Htail Hu.
  destruct (match_heading (u ++ nl ++ tail)) as [[label rest]|] eqn:E;
    [|reflexivity].
  exfalso. apply (match_heading_complete u); [|exact Hu].
  apply (match_heading_local u tail label rest Htail E).
Qed.

End MatchFacts.
Import MatchFacts.

(** ** Texts in which no heading starts *)

Module InertFacts.

Lemma inert_nil : inert [].
Proof.
  intros a u E. symmetry in E. apply app_eq_nil in E.
  destruct E as [_ ->]. reflexivity.
Qed.

Lemma inert_head s : inert s -> match_heading s = None.
Proof. intros H. apply (H [] s). reflexivity. Qed.

Lemma inert_tail c s : inert (c :: s) -> inert s.
Proof. intros H a u E. apply (H (c :: a) u). rewrite E. reflexivity. Qed.

(** A part of an inert text is inert. *)
Lemma inert_part a s b : inert (a ++ s ++ b) -> inert s.
Proof.
  intros H x u E. apply (match_heading_longer u b).
  apply (H (a ++ x) (u ++ b)). rewrite E. repeat rewrite <- app_assoc.
  reflexivity.
Qed.

(** The scan passes an inert text that a line feed ends. *)
Lemma split_from_inert e : forall piece tail,
  inert e -> tail_ok tail = true ->
  split_from piece (e ++ nl ++ tail) = split_from (piece ++ e ++ nl) tail.
Proof.
  induction e as [|c e IH]; intros piece tail He Htail.
  - cbn [app nl]. rewrite split_from_eq.
    rewrite match_heading_first by reflexivity. reflexivity.
  - rewrite split_from_eq.
    rewrite (match_heading_before (c :: e) tail Htail (inert_head _ He)).
    cbn [app]. rewrite (IH _ _ (inert_tail _ _ He) Htail).
    rewrite <- app_assoc. reflexivity.
Qed.

Lemma split_from_inert_end e : forall piece,
  inert e -> split_from piece e = [piece ++ e].
Proof.
  induction e as [|c e IH]; intros piece He.
  - rewrite split_from_end, app_nil_r. reflexivity.
  - rewrite split_from_eq, (inert_head _ He).
    rewrite (IH _ (inert_tail _ _ He)). rewrite <- app_assoc. reflexivity.
Qed.

(** The first piece of a scan: what the scan passes before the first
    match, where no heading starts. *)
Lemma split_from_first : forall piece s,
  exists body following more,
    s = body ++ following /\
    split_from piece s = (piece ++ body) :: more /\
    (forall a u, body = a ++ u -> u <> [] ->
                 match_heading (u ++ following) = None).
Proof.
  apply (scan_ind (fun piece s =>
    exists body following more,
      s = body ++ following /\
      split_from piece s = (piece ++ body) :: more /\
      (forall a u, body = a ++ u -> u <> [] ->
                   match_heading (u ++ following) = None))).
  - intros piece s label rest Hm _.
    exists [], s, (label :: split_from [] rest).
    split; [reflexivity|]. split.
    + rewrite app_nil_r. apply split_from_heading. exact Hm.
    + intros a u E Hu. symmetry in E. apply app_eq_nil in E.
      destruct E as [_ E]. contradiction.
  - intros piece. exists [], [], []. split; [reflexivity|]. split.
    + rewrite app_nil_r. apply split_from_end.
    + intros a u E Hu. symmetry in E. apply app_eq_nil in E.
      destruct E as [_ E]. contradiction.
  - intros piece c s Hm (body & following & more & -> & Hsplit & Hquiet).
    exists (c :: body), following, more. split; [reflexivity|]. split.
    + rewrite split_from_eq, Hm, Hsplit. rewrite <- app_assoc. reflexivity.
    + intros a u E Hu. destruct a as [|c' a].
      * cbn [app] in E. subst u. exact Hm.
      * injection E as _ E. apply (Hquiet a u E Hu).
Qed.

Lemma first_piece_inert s :
  exists body more, split_from [] s = body :: more /\ inert body.
Proof.
  destruct (split_from_first [] s)
    as (body & following & more & _ & Hsplit & Hquiet).
  exists body, more. split; [exact Hsplit|].
  intros a u E. destruct u as [|c u]; [reflexivity|].
  apply (match_heading_longer (c :: u) following).
  apply (Hquiet a (c :: u) E). discriminate.
Qed.

(** The bodies that the segmentation gives are inert. *)
Lemma split_headings_inert : forall piece s name text,
  In (name, text) (headings (tl (split_from piece s))) -> inert text.
Proof.
  apply (scan_ind (fun piece s => forall name text,
    In (name, text) (headings (tl (split_from piece s))) -> inert text)).
  - intros piece s label rest Hm IH name text.
    rewrite split_from_eq, Hm. cbn [tl].
    destruct (first_piece_inert rest) as (body & more & E & Hbody).
    rewrite E in *. cbn [tl headings] in *. intros [Heq | Hin].
    + injection Heq as <- <-. exact Hbody.
    + apply (IH _ _ Hin).
  - intros piece name text. rewrite split_from_eq. simpl. contradiction.
  - intros piece c s Hm IH name text. rewrite split_from_eq, Hm.
    apply IH.
Qed.

Lemma headings_of_inert answer name text :
  In (name, text) (headings_of answer) -> inert text.
Proof. apply split_headings_inert. Qed.

End InertFacts.
Import InertFacts.

(** ** Lines *)

Module LineFacts.

(** A line of [splitlines] is a part of the text. *)
Lemma splitlines_from_part x s : forall after_cr line,
  (after_cr = true -> line = []) ->
  In x (splitlines_from after_cr line s) ->
  exists a b, line ++ s = a ++ x ++ b.
Proof.
  induction s as [|c s IH]; intros after_cr line Hcr Hin.
  - simpl in Hin. destruct line as [|c line]; [contradiction|].
    destruct Hin as [<- | []]. exists [], []. rewrite !app_nil_r. reflexivity.
  - cbn [splitlines_from] in Hin.
    destruct (after_cr && Ascii.eqb c "010") eqn:Hskip.
    + apply andb_true_iff in Hskip. destruct Hskip as [-> _].
      rewrite (Hcr eq_refl) in *.
      destruct (IH _ _ (fun _ => eq_refl) Hin) as (a & b & E).
      exists (c :: a), b. cbn [app] in *. rewrite E. reflexivity.
    + destruct (islinebreak c).
      * destruct Hin as [<- | Hin].
        -- exists [], (c :: s). reflexivity.
        -- destruct (IH _ _ (fun _ => eq_refl) Hin) as (a & b & E).
           exists (line ++ c :: a), b. cbn [app] in E. rewrite E.
           rewrite <- app_assoc. reflexivity.
      * destruct (IH _ _ (fun H => False_ind _ (diff_false_true H)) Hin)
          as (a & b & E).
        exists a, b. rewrite <- E, <- app_assoc. reflexivity.
Qed.

Lemma splitlines_part x s :
  In x (splitlines s) -> exists a b, s = a ++ x ++ b.
Proof.
  intros H. apply (splitlines_from_part x s false []); [discriminate|exact H].
Qed.

(** A line of [splitlines] has no line boundary. *)
Lemma splitlines_from_no_break x s : forall after_cr line,
  forallb not_break line = true ->
  In x (splitlines_from after_cr line s) -> forallb not_break x = true.
Proof.
  induction s as [|c s IH]; intros after_cr line Hline Hin.
  - simpl in Hin. destruct line as [|c line]; [contradiction|].
    destruct Hin as [<- | []]. exact Hline.
  - cbn [splitlines_from] in Hin.
    destruct (after_cr && Ascii.eqb c "010").
    + apply (IH _ _ Hline Hin).
    + destruct (islinebreak c) eqn:Hc.
      * destruct Hin as [<- | Hin]; [exact Hline|].
        apply (IH _ [] eq_refl Hin).
      * apply (IH false (line ++ [c])); [|exact Hin].
        rewrite forallb_app, Hline. unfold not_break at 1. simpl.
        rewrite Hc. reflexivity.
Qed.

Lemma splitlines_no_break x s :
  In x (splitlines s) -> forallb not_break x = true.
Proof. apply (splitlines_from_no_break x s false []). reflexivity. Qed.

Lemma forallb_part (p : ascii -> bool) a s b :
  forallb p (a ++ s ++ b) = true -> forallb p s = true.
Proof.
  rewrite !forallb_app. intros H. apply andb_true_iff in H.
  destruct H as [_ H]. apply andb_true_iff in H. tauto.
Qed.

(** A run without a line boundary joins the line being read. *)
Lemma splitlines_from_run run : forall line rest,
  forallb not_break run = true ->
  splitlines_from false line (run ++ rest)
  = splitlines_from false (line ++ run) rest.
Proof.
  induction run as [|c run IH]; intros line rest H.
  - rewrite app_nil_r. reflexivity.
  - simpl in H. apply andb_true_iff in H. destruct H as [Hc Hrun].
    unfold not_break in Hc. apply negb_true_iff in Hc.
    cbn [app splitlines_from andb]. rewrite Hc.
    rewrite (IH _ _ Hrun). rewrite <- app_assoc. reflexivity.
Qed.

Lemma splitlines_from_nl line rest :
  splitlines_from false line (nl ++ rest)
  = line :: splitlines_from false [] rest.
Proof. reflexivity. Qed.

(** Lines that a line feed ends, and a last line that nothing ends. *)
Lemma splitlines_lines lines final :
  Forall (fun line => forallb not_break line = true) lines ->
  forallb not_break final = true -> final <> [] ->
  splitlines (concat (map (fun line => line ++ nl) lines) ++ final)
  = lines ++ [final].
Proof.
  intros Hlines Hfinal Hne. unfold splitlines.
  induction Hlines as [|line lines Hline _ IH]; cbn [map concat app].
  - rewrite <- (app_nil_r final) at 1.
    rewrite (splitlines_from_run final [] [] Hfinal).
    destruct final; [contradiction|reflexivity].
  - repeat rewrite <- app_assoc.
    rewrite (splitlines_from_run line [] _ Hline).
    rewrite splitlines_from_nl, IH. reflexivity.
Qed.

End LineFacts.
Import LineFacts.

(** ** What the parser's output is made of *)

Module OutputFacts.

Lemma strip_with_part p s :
  exists a b, s = a ++ strip_with p s ++ b.
Proof.
  destruct (strip_with_decomp p s) as (a & b & E & _). eauto.
Qed.

Lemma inert_strip_with p s : inert s -> inert (strip_with p s).
Proof.
  intros H. destruct (strip_with_part p s) as (a & b & E).
  rewrite E in H. apply (inert_part _ _ _ H).
Qed.

Lemma text_ok_strip text : inert text -> text_ok (strip text).
Proof.
  intros H. split; [apply inert_strip_with; exact H|].
  apply strip_with_trimmed.
Qed.

Lemma item_ok_bullet_lines text :
  inert text -> Forall item_ok (bullet_lines (strip text)).
Proof.
  intros Htext. apply Forall_forall. intros item Hin.
  unfold bullet_lines in Hin. apply in_map_iff in Hin.
  destruct Hin as (line & <- & Hline). apply filter_In in Hline.
  destruct Hline as [Hline _].
  assert (Hinert : inert line).
  { destruct (splitlines_part _ _ Hline) as (a & b & E).
    apply (inert_part a line b). rewrite <- E.
    apply inert_strip_with. exact Htext. }
  split; [|split].
  - apply inert_strip_with. apply inert_strip_with. exact Hinert.
  - apply strip_with_trimmed.
  - assert (Hnb := splitlines_no_break _ _ Hline).
    destruct (strip_with_part (mem (L "* ")) line) as (a & b & E).
    fold (strip_chars (L "* ") line) in E.
    destruct (strip_with_part isspace (strip_chars (L "* ") line))
      as (a' & b' & E').
    fold (strip (strip_chars (L "* ") line)) in E'.
    rewrite E in Hnb. apply forallb_part in Hnb.
    rewrite E' in Hnb. apply forallb_part in Hnb. exact Hnb.
Qed.

Lemma output_ok_initial : output_ok initial.
Proof.
  repeat split; try apply inert_nil; constructor.
Qed.

Lemma output_ok_feed d name text :
  inert text -> output_ok d -> output_ok (feed d (name, text)).
Proof.
  intros Htext (He & Hs & Hk & Hr & Hc). unfold feed. cbn [fst snd].
  destruct (classify name) as [[]|]; cbn [store];
    unfold output_ok; cbn;
    auto 6 using text_ok_strip, item_ok_bullet_lines.
Qed.

Lemma output_ok_fold hs : forall d,
  (forall name text, In (name, text) hs -> inert text) ->
  output_ok d -> output_ok (fold_left feed hs d).
Proof.
  induction hs as [|[name text] hs IH]; intros d Hhs Hd; [exact Hd|].
  cbn [fold_left]. apply IH.
  - intros n t Hin. apply (Hhs n t). right. exact Hin.
  - apply output_ok_feed; [|exact Hd].
    apply (Hhs name text). left. reflexivity.
Qed.

(** What the parser returns is made of trimmed parts of the answer in
    which no heading starts. *)
Lemma output_ok_parse answer d :
  parse_answer answer = Ok d -> output_ok d.
Proof.
  rewrite parse_answer_fold. intros E. injection E as <-.
  apply output_ok_fold; [|apply output_ok_initial].
  apply headings_of_inert.
Qed.

End OutputFacts.
Import OutputFacts.

(** ** The answer rebuilt from the parser's output *)

Module ReconstructFacts.
Import Reconstruct.

Lemma inert_cons c s :
  match_heading (c :: s) = None -> inert s -> inert (c :: s).
Proof.
  intros Hc Hs a u E. destruct a as [|c' a].
  - cbn [app] in E. subst u. exact Hc.
  - injection E as _ E. apply (Hs a u E).
Qed.

Lemma passable_text e : inert e -> passable (nl ++ e ++ nl).
Proof.
  intros He piece tail Htail.
  assert (H : inert (nl ++ e)).
  { apply inert_cons; [|exact He]. apply match_heading_first. reflexivity. }
  replace ((nl ++ e ++ nl) ++ tail) with ((nl ++ e) ++ nl ++ tail)
    by (repeat rewrite <- app_assoc; reflexivity).
  rewrite (split_from_inert _ piece tail H Htail).
  repeat rewrite <- app_assoc. reflexivity.
Qed.

Lemma tail_ok_bullets items tail :
  tail_ok tail = true -> tail_ok (bullets items ++ tail) = true.
Proof. destruct items; [trivial|reflexivity]. Qed.

Lemma inert_line item : inert item -> inert (L "* " ++ item).
Proof.
  intros H. apply inert_cons.
  - apply match_heading_second. reflexivity.
  - apply inert_cons; [|exact H]. apply match_heading_first. reflexivity.
Qed.

Lemma passable_bullets_only items :
  Forall inert items -> passable (bullets items).
Proof.
  intros H. induction H as [|item items Hitem _ IH];
    intros piece tail Htail.
  - cbn. rewrite app_nil_r. reflexivity.
  - unfold bullets. cbn [map concat]. fold (bullets items).
    replace (((L "* " ++ item ++ nl) ++ bullets items) ++ tail)
      with ((L "* " ++ item) ++ nl ++ (bullets items ++ tail))
      by (repeat rewrite <- app_assoc; reflexivity).
    rewrite (split_from_inert _ piece _ (inert_line _ Hitem)
               (tail_ok_bullets items tail Htail)).
    rewrite (IH _ tail Htail). repeat rewrite <- app_assoc. reflexivity.
Qed.

Lemma passable_bullets items :
  Forall inert items -> passable (nl ++ bullets items).
Proof.
  intros H piece tail Htail.
  replace ((nl ++ bullets items) ++ tail) with (nl ++ bullets items ++ tail)
    by (rewrite <- app_assoc; reflexivity).
  rewrite split_from_eq. cbn [nl app].
  rewrite match_heading_first by reflexivity.
  rewrite (passable_bullets_only items H _ tail Htail).
  rewrite <- app_assoc. reflexivity.
Qed.

(** A heading, a passable body, and what follows. *)
Lemma split_from_passable piece heading label body tail :
  (forall rest, match_heading (heading ++ rest) = Some (label, rest)) ->
  passable body -> tail_ok tail = true ->
  split_from piece (heading ++ body ++ tail)
  = piece :: label :: split_from body tail.
Proof.
  intros Hheading Hbody Htail.
  rewrite (split_from_heading _ _ _ _ (Hheading _)).
  rewrite (Hbody [] tail Htail). reflexivity.
Qed.

Lemma re_split_reconstruct d :
  inert (explanation d) -> inert (summary d) ->
  Forall inert (key_points d) -> Forall inert (risks d) ->
  Forall inert (recommendations d) ->
  re_split (reconstruct d)
  = [ []; L "Explanation"; nl ++ explanation d ++ nl;
      L "Summary"; nl ++ summary d ++ nl;
      L "Key Points"; nl ++ bullets (key_points d);
      L "Risks"; nl ++ bullets (risks d);
      L "Recommendations"; nl ++ bullets (recommendations d) ].
Proof.
  intros He Hs Hk Hr Hc. unfold re_split, reconstruct.
  rewrite (split_from_passable _ _ (L "Explanation"));
    [|intros; reflexivity|apply passable_text; assumption|reflexivity].
  rewrite (split_from_passable _ _ (L "Summary"));
    [|intros; reflexivity|apply passable_text; assumption|reflexivity].
  rewrite (split_from_passable _ _ (L "Key Points"));
    [|intros; reflexivity|apply passable_bullets; assumption|reflexivity].
  rewrite (split_from_passable _ _ (L "Risks"));
    [|intros; reflexivity|apply passable_bullets; assumption|reflexivity].
  rewrite <- (app_nil_r (nl ++ bullets (recommendations d))).
  rewrite (split_from_passable _ _ (L "Recommendations"));
    [|intros; reflexivity|apply passable_bullets; assumption|reflexivity].
  rewrite split_from_end, app_nil_r. reflexivity.
Qed.

(** *** Reading the bulleted lines back *)

Lemma bullets_lines items :
  bullets items = concat (map (fun line => line ++ nl) (map line_of items)).
Proof.
  unfold bullets. rewrite map_map. reflexivity.
Qed.

Lemma bullets_last init last :
  bullets (init ++ [last])
  = (bullets init ++ final_line last) ++ final_gap last.
Proof.
  unfold bullets. rewrite map_app, concat_app. cbn [map concat].
  rewrite app_nil_r, <- app_assoc. f_equal.
  destruct last; reflexivity.
Qed.

Lemma starts_clean_app p s t :
  s <> [] -> starts_clean p (s ++ t) = starts_clean p s.
Proof. destruct s; [contradiction|reflexivity]. Qed.

Lemma trimmed_lines init last :
  trimmed isspace last = true ->
  trimmed isspace (bullets init ++ final_line last) = true.
Proof.
  intros Hlast. unfold trimmed. apply andb_true_iff. split.
  - destruct init as [|item init]; [destruct last; reflexivity|reflexivity].
  - rewrite rev_app_distr. rewrite starts_clean_app.
    + destruct last as [|c last]; [reflexivity|].
      unfold final_line, line_of. rewrite rev_app_distr.
      rewrite starts_clean_app.
      * unfold trimmed in Hlast. apply andb_true_iff in Hlast. tauto.
      * intros E. apply (f_equal (@length ascii)) in E.
        rewrite length_rev in E. discriminate.
    + intros E. apply (f_equal (@length ascii)) in E.
      rewrite length_rev in E. destruct last; discriminate.
Qed.

Lemma strip_bullets init last :
  trimmed isspace last = true ->
  strip (nl ++ bullets (init ++ [last])) = bullets init ++ final_line last.
Proof.
  intros Hlast. rewrite bullets_last. apply strip_with_sandwich.
  - reflexivity.
  - destruct last; reflexivity.
  - apply trimmed_lines. exact Hlast.
Qed.

Lemma strip_head c s :
  isspace c = false -> exists s', strip (c :: s) = c :: s'.
Proof.
  intros Hc. unfold strip, strip_with. cbn [lstrip_with]. rewrite Hc.
  destruct (rstrip_decomp isspace (c :: s)) as (post & E & Hpost).
  destruct (rstrip_with isspace (c :: s)) as [|c' s'].
  - cbn [app] in E. subst post. simpl in Hpost. rewrite Hc in Hpost.
    discriminate.
  - injection E as <- _. eauto.
Qed.

Lemma kept_line item : startswith (strip (line_of item)) (L "*") = true.
Proof.
  destruct (strip_head "*"%char (" "%char :: item) eq_refl) as (s' & E).
  unfold line_of. cbn [L list_ascii_of_string app]. rewrite E. reflexivity.
Qed.

Lemma kept_final_line item :
  startswith (strip (final_line item)) (L "*") = true.
Proof. destruct item; [reflexivity|apply kept_line]. Qed.

Lemma clean_mem item :
  trimmed isspace item = true -> clean item = true ->
  trimmed (mem (L "* ")) item = true.
Proof.
  assert (H : forall s, starts_clean isspace s = true ->
                        starts_clean is_asterisk s = true ->
                        starts_clean (mem (L "* ")) s = true).
  { intros [|c s]; [reflexivity|]. unfold is_asterisk. cbn.
    intros Hs Ha. apply negb_true_iff in Hs, Ha. rewrite Ha.
    destruct (Ascii.eqb_spec c " ") as [->|]; [discriminate|reflexivity]. }
  unfold clean, trimmed. intros Hs Ha.
  apply andb_true_iff in Hs, Ha. destruct Hs, Ha.
  apply andb_true_iff. auto.
Qed.

Lemma entry_of_line_of item :
  trimmed isspace item = true -> clean item = true ->
  strip (strip_chars (L "* ") (line_of item)) = item.
Proof.
  intros Hs Ha. unfold strip_chars, line_of.
  rewrite <- (app_nil_r item) at 1.
  rewrite strip_with_sandwich; auto using clean_mem.
  apply strip_with_id. exact Hs.
Qed.

Lemma entry_of_final_line item :
  trimmed isspace item = true -> clean item = true ->
  strip (strip_chars (L "* ") (final_line item)) = item.
Proof.
  destruct item; [reflexivity|]. apply entry_of_line_of.
Qed.

Lemma no_break_line_of item :
  forallb not_break item = true -> forallb not_break (line_of item) = true.
Proof. intros H. unfold line_of. rewrite forallb_app, H. reflexivity. Qed.

Lemma no_break_final_line item :
  forallb not_break item = true -> forallb not_break (final_line item) = true.
Proof. destruct item; [reflexivity|apply no_break_line_of]. Qed.

Lemma filter_all {A} (p : A -> bool) l :
  (forall x, In x l -> p x = true) -> filter p l = l.
Proof.
  induction l as [|x l IH]; intros H; simpl; [reflexivity|].
  rewrite (H x) by (left; reflexivity). f_equal. apply IH.
  intros y Hy. apply H. right. exact Hy.
Qed.

(** Whatever asterisks and spaces mark the bullet, an entry that starts
    with an asterisk comes back without it. *)
Lemma marker_takes_asterisk marker :
  forallb (mem (L "* ")) marker = true ->
  strip (strip_chars (L "* ") (marker ++ L "*x")) = L "x".
Proof.
  intros H. unfold strip_chars.
  replace (marker ++ L "*x") with ((marker ++ L "*") ++ L "x" ++ [])
    by (rewrite <- app_assoc; reflexivity).
  rewrite strip_with_sandwich; [reflexivity| |reflexivity|reflexivity].
  rewrite forallb_app, H. reflexivity.
Qed.

Lemma bullet_lines_bullets items :
  Forall readable items ->
  bullet_lines (strip (nl ++ bullets items)) = items.
Proof.
  destruct items as [|last init _] using rev_ind; [reflexivity|].
  intros H. apply Forall_app in H. destruct H as [Hinit Hlast].
  inversion Hlast as [|? ? (Hs & Hb & Ha) _]; subst.
  rewrite strip_bullets by exact Hs. rewrite bullets_lines.
  unfold bullet_lines. rewrite splitlines_lines.
  - rewrite filter_all.
    + rewrite map_app, map_map. cbn [map].
      rewrite (entry_of_final_line last Hs Ha). f_equal.
      rewrite <- (map_id init) at 2. apply map_ext_in.
      intros item Hin. rewrite Forall_forall in Hinit.
      destruct (Hinit item Hin) as (Hs' & _ & Ha').
      apply entry_of_line_of; assumption.
    + intros line Hin. apply in_app_or in Hin.
      destruct Hin as [Hin | [<- | []]].
      * apply in_map_iff in Hin. destruct Hin as (item & <- & _).
        apply kept_line.
      * apply kept_final_line.
  - apply Forall_forall. intros line Hin. apply in_map_iff in Hin.
    destruct Hin as (item & <- & Hin). rewrite Forall_forall in Hinit.
    apply no_break_line_of. apply (Hinit item Hin).
  - apply no_break_final_line. exact Hb.
  - destruct last; discriminate.
Qed.

Lemma strip_text e :
  trimmed isspace e = true -> strip (nl ++ e ++ nl) = e.
Proof. intros H. apply strip_with_sandwich; auto. Qed.

Lemma readable_items items :
  Forall item_ok items -> Forall (fun item => clean item = true) items ->
  Forall readable items.
Proof.
  intros Hok Hclean. rewrite Forall_forall in *. intros item Hin.
  destruct (Hok item Hin) as (_ & Hs & Hb). specialize (Hclean item Hin).
  repeat split; assumption.
Qed.

Lemma inert_items items : Forall item_ok items -> Forall inert items.
Proof. apply Forall_impl. intros item H. apply H. Qed.

(** The rebuilt answer parses to the output it was built from. *)
Lemma parse_reconstruct d :
  output_ok d ->
  Forall (fun item => clean item = true)
         (key_points d ++ risks d ++ recommendations d) ->
  parse_answer (reconstruct d) = Ok d.
Proof.
  intros ((He & He') & (Hs & Hs') & Hk & Hr & Hc) Hclean.
  apply Forall_app in Hclean. destruct Hclean as [Hck Hclean].
  apply Forall_app in Hclean. destruct Hclean as [Hcr Hcc].
  unfold parse_answer.
  rewrite re_split_reconstruct by auto using inert_items.
  rewrite parse_sections_fold by reflexivity.
  cbn [headings fold_left]. unfold feed. cbn [fst snd].
  change (classify (L "Explanation")) with (Some Explanation).
  change (classify (L "Summary")) with (Some Summary).
  change (classify (L "Key Points")) with (Some KeyPoints).
  change (classify (L "Risks")) with (Some Risks).
  change (classify (L "Recommendations")) with (Some Recommendations).
  cbn [store]. rewrite !strip_text by assumption.
  rewrite !bullet_lines_bullets by auto using readable_items.
  destruct d; reflexivity.
Qed.

End ReconstructFacts.

(** C9, as the code has it: when no entry of the parsed list fields has
    an asterisk at either end, the answer rebuilt from the parser's
    output (each heading followed by the text of its field, or by one
    line [* entry] for each entry) parses to the same output as the
    original answer. *)
Theorem reparse_reconstructed (answer : str) (d : data_map) :
  parse_answer answer = Ok d ->
  Forall (fun item => Reconstruct.clean item = true)
         (key_points d ++ risks d ++ recommendations d) ->
  parse_answer (Reconstruct.reconstruct d) = Ok d.
Proof.
  intros Hparse Hclean. apply ReconstructFacts.parse_reconstruct.
  - apply (output_ok_parse answer d Hparse).
  - exact Hclean.
Qed.

Lemma reparse_reconstructed_witness :
  parse_answer
    (Reconstruct.reconstruct
       {| explanation := L "A lease of a **flat** in Tashkent.";
          summary := L "One year, paid monthly.";
          key_points := [L "Rent is due monthly"; L "Deposit of two months"];
          risks := [];
          recommendations := [L "Ask for a cap on penalties"] |})
  = Ok {| explanation := L "A lease of a **flat** in Tashkent.";
          summary := L "One year, paid monthly.";
          key_points := [L "Rent is due monthly"; L "Deposit of two months"];
          risks := [];
          recommendations := [L "Ask for a cap on penalties"] |}.
Proof.
  apply (reparse_reconstructed
           (L "Here is the analysis.
**1. Explanation:** A lease of a **flat** in Tashkent.
**2. Summary:** One year, paid monthly.
**3. Key Points:**
* Rent is due monthly
See the annex for the amounts
* Deposit of two months
**4. Risks:**
**5. Recommendations:**
* Ask for a cap on penalties
**6. Legal References:** Civil Code, article 535
")).
  - vm_compute. reflexivity.
  - repeat constructor.
Defined.

(** C9 fails as stated: an entry that starts with an asterisk, here
    after a tab, loses it when the rebuilt answer is parsed. *)
Lemma reparse_differs :
  exists d d',
    parse_answer (L "**3. Key Points:**" ++ nl ++ ["*"; "009"; "*"; "x"]%char)
    = Ok d /\
    parse_answer (Reconstruct.reconstruct d) = Ok d' /\
    key_points d = [L "*x"] /\
    key_points d' = [L "x"] /\
    d' <> d.
Proof.
  eexists. eexists. split; [vm_compute; reflexivity|].
  split; [vm_compute; reflexivity|].
  split; [reflexivity|]. split; [reflexivity|]. discriminate.
Qed.

(** * Further properties of the parser *)

Module PieceFacts.

Lemma glue_split : forall piece s,
  exists marks,
    glue (split_from piece s) marks = piece ++ s /\
    Forall mark_ok marks /\
    length marks = length (headings (tl (split_from piece s))).
Proof.
  apply (scan_ind (fun piece s =>
    exists marks,
      glue (split_from piece s) marks = piece ++ s /\
      Forall mark_ok marks /\
      length marks = length (headings (tl (split_from piece s))))).
  - intros piece s label rest Hm (marks & Hglue & Hok & Hlen).
    destruct (match_heading_inv _ _ _ Hm)
      as (digits & spaces & -> & Hd & Hdd & Hs & _).
    exists ((digits, spaces) :: marks).
    rewrite (split_from_heading _ _ _ _ Hm).
    destruct (split_from_cons [] rest) as (first & more & E).
    rewrite E in *. cbn [glue tl headings length] in *.
    split; [|split].
    + rewrite Hglue. reflexivity.
    + constructor; [|exact Hok]. repeat split; assumption.
    + rewrite Hlen. reflexivity.
  - intros piece. exists []. rewrite split_from_end, app_nil_r.
    repeat split. constructor.
  - intros piece c s Hm (marks & Hglue & Hok & Hlen). exists marks.
    rewrite split_from_eq, Hm. rewrite Hglue, <- app_assoc. auto.
Qed.

(** The scan of a text in a piece: the piece joins the first piece. *)
Lemma split_from_piece_any : forall (piece s q : str),
  split_from q s
  = (q ++ hd [] (split_from [] s)) :: tl (split_from [] s).
Proof.
  apply (scan_ind (fun _ s => forall q,
    split_from q s
    = (q ++ hd [] (split_from [] s)) :: tl (split_from [] s))).
  - intros _ s' label rest Hm _ q.
    rewrite !(split_from_heading _ _ _ _ Hm). cbn [hd tl].
    rewrite app_nil_r. reflexivity.
  - intros _ q. rewrite !split_from_end. cbn [hd tl].
    rewrite app_nil_r. reflexivity.
  - intros _ c s' Hm IH q.
    rewrite (split_from_eq q), (split_from_eq []), Hm. cbn [app].
    rewrite (IH (q ++ [c])), (IH [c]). cbn [hd tl].
    rewrite <- app_assoc. reflexivity.
Qed.

Lemma split_from_piece s q :
  split_from q s
  = (q ++ hd [] (split_from [] s)) :: tl (split_from [] s).
Proof. apply (split_from_piece_any [] s q). Qed.

(** The bodies of the headings are parts of the text. *)
Lemma split_bodies_part : forall piece s name text,
  In (name, text) (headings (tl (split_from piece s))) -> part_of s text.
Proof.
  apply (scan_ind (fun piece s => forall name text,
    In (name, text) (headings (tl (split_from piece s))) ->
    part_of s text)).
  - intros piece s label rest Hm IH name text.
    rewrite (split_from_heading _ _ _ _ Hm). cbn [tl].
    destruct (match_heading_inv _ _ _ Hm) as (digits & spaces & -> & _).
    destruct (split_from_first [] rest)
      as (body & following & more & Hrest & E & _).
    rewrite E in *. cbn [tl headings app] in *. intros [Heq | Hin].
    + injection Heq as <- <-.
      exists (L "**" ++ digits ++ L "." ++ spaces ++ label ++ L ":**"),
        following.
      rewrite Hrest at 1. repeat rewrite <- app_assoc. reflexivity.
    + destruct (IH _ _ Hin) as (a & b & Hab).
      exists ((L "**" ++ digits ++ L "." ++ spaces ++ label ++ L ":**") ++ a),
        b.
      rewrite Hab at 1. repeat rewrite <- app_assoc. reflexivity.
  - intros piece name text. rewrite split_from_end. simpl. contradiction.
  - intros piece c s Hm IH name text. rewrite split_from_eq, Hm.
    intros Hin. destruct (IH _ _ Hin) as (a & b & ->).
    exists (c :: a), b. reflexivity.
Qed.

Lemma part_of_trans s t u : part_of s t -> part_of t u -> part_of s u.
Proof.
  intros (a & b & ->) (a' & b' & ->). exists (a ++ a'), (b' ++ b).
  repeat rewrite <- app_assoc. reflexivity.
Qed.

Lemma part_of_strip_with p t : part_of t (strip_with p t).
Proof. destruct (strip_with_part p t) as (a & b & E). exists a, b. exact E. Qed.

Lemma part_of_nil s : part_of s [].
Proof. exists [], s. reflexivity. Qed.

Lemma bullet_lines_part text item :
  In item (bullet_lines (strip text)) -> part_of text item.
Proof.
  unfold bullet_lines. intros Hin. apply in_map_iff in Hin.
  destruct Hin as (line & <- & Hline). apply filter_In in Hline.
  destruct Hline as [Hline _].
  apply (part_of_trans _ (strip text)); [apply part_of_strip_with|].
  apply (part_of_trans _ line).
  - destruct (splitlines_part _ _ Hline) as (a & b & E). exists a, b.
    exact E.
  - apply (part_of_trans _ (strip_chars (L "* ") line));
      apply part_of_strip_with.
Qed.

Lemma texts_feed (P : str -> Prop) d name text :
  P (strip text) ->
  (forall item, In item (bullet_lines (strip text)) -> P item) ->
  Forall P (texts d) -> Forall P (texts (feed d (name, text))).
Proof.
  intros Hstrip Hitems Hd. unfold feed. cbn [fst snd].
  assert (Hlines : Forall P (bullet_lines (strip text)))
    by (apply Forall_forall; exact Hitems).
  unfold texts in *. inversion Hd as [|? ? He Hd']; subst.
  inversion Hd' as [|? ? Hs Hl]; subst.
  apply Forall_app in Hl. destruct Hl as [Hk Hl].
  apply Forall_app in Hl. destruct Hl as [Hr Hc].
  destruct (classify name) as [[]|]; cbn [store];
    cbn [explanation summary key_points risks recommendations
         set_explanation set_summary set_key_points set_risks
         set_recommendations];
    repeat constructor; auto; repeat (apply Forall_app; split); auto.
Qed.

Lemma texts_fold (P : str -> Prop) hs : forall d,
  (forall name text, In (name, text) hs ->
     P (strip text) /\
     forall item, In item (bullet_lines (strip text)) -> P item) ->
  Forall P (texts d) -> Forall P (texts (fold_left feed hs d)).
Proof.
  induction hs as [|[name text] hs IH]; intros d Hhs Hd; [exact Hd|].
  cbn [fold_left]. apply IH.
  - intros n t Hin. apply (Hhs n t). right. exact Hin.
  - destruct (Hhs name text (or_introl eq_refl)) as (H1 & H2).
    apply texts_feed; assumption.
Qed.

End PieceFacts.
Import PieceFacts.

(** X1: the segmentation loses nothing but the marks of the headings:
    the pieces and the labels, each label put back in a heading with
    some digits and whitespace, give the answer back. *)
Theorem segmentation_glues_back (answer : str) :
  exists marks,
    glue (re_split answer) marks = answer /\
    Forall mark_ok marks /\
    length marks = length (headings_of answer).
Proof. apply (glue_split [] answer). Qed.

(** X2: the segmentation leaves no heading behind: no heading starts in
    the piece before the first heading nor in the body of a heading, and
    every label is not empty and has no asterisk. *)
Theorem segmentation_leaves_no_heading (answer : str) :
  inert (hd [] (re_split answer)) /\
  (forall name text,
      In (name, text) (headings_of answer) ->
      inert text /\ name <> [] /\ forallb not_asterisk name = true).
Proof.
  split.
  - unfold re_split.
    destruct (first_piece_inert answer) as (body & more & -> & H).
    exact H.
  - intros name text Hin. split.
    + apply (headings_of_inert answer name text Hin).
    + destruct (headings_of_occur answer name text Hin)
        as (before & digits & spaces & after & _ & _ & _ & _ & H1 & H2).
      auto.
Qed.

(** X3: the parser invents no text: the explanation, the summary and
    every entry of the list fields are parts of the answer. *)
Theorem output_is_made_of_the_answer (answer : str) :
  exists d,
    parse_answer answer = Ok d /\ Forall (part_of answer) (texts d).
Proof.
  eexists. split; [apply parse_answer_fold|].
  apply texts_fold.
  - intros name text Hin.
    assert (Hpart : part_of answer text)
      by (apply (split_bodies_part [] answer name text Hin)).
    split.
    + apply (part_of_trans _ text); [exact Hpart|].
      apply part_of_strip_with.
    + intros item Hitem. apply (part_of_trans _ text); [exact Hpart|].
      apply bullet_lines_part. exact Hitem.
  - repeat constructor; apply part_of_nil.
Qed.

(** X4: what the parser returns is trimmed: no text field and no entry
    has whitespace at either end, and no entry has a line boundary. *)
Theorem output_is_trimmed (answer : str) :
  exists d,
    parse_answer answer = Ok d /\
    Forall (fun t => trimmed isspace t = true) (texts d) /\
    Forall (fun item => forallb not_break item = true)
           (key_points d ++ risks d ++ recommendations d).
Proof.
  destruct (parse_answer_Ok answer) as (d & Hd). exists d.
  split; [exact Hd|].
  destruct (output_ok_parse answer d Hd)
    as ((_ & He) & (_ & Hs) & Hk & Hr & Hc).
  assert (H1 : forall l, Forall item_ok l ->
                         Forall (fun t => trimmed isspace t = true) l).
  { intros l. apply Forall_impl. intros t (_ & H & _). exact H. }
  assert (H2 : forall l, Forall item_ok l ->
                         Forall (fun t => forallb not_break t = true) l).
  { intros l. apply Forall_impl. intros t (_ & _ & H). exact H. }
  split.
  - unfold texts. repeat constructor; auto.
    repeat (apply Forall_app; split); auto.
  - repeat (apply Forall_app; split); auto.
Qed.

(** X5: what stands before the first heading does not count: a preamble
    in which no two asterisks are side by side and which does not end
    with an asterisk leaves the output as it is. *)
Theorem preamble_is_ignored (preamble answer : str) :
  no_double_asterisk preamble = true ->
  parse_answer (preamble ++ answer) = parse_answer answer.
Proof.
  intros H. unfold parse_answer, re_split.
  rewrite (split_from_through preamble [] answer H). cbn [app].
  rewrite (split_from_piece answer preamble).
  assert (Hodd := split_from_odd [] answer).
  destruct (split_from [] answer) as [|first more]; [discriminate|].
  cbn [hd tl]. cbn [length] in Hodd. rewrite Nat.odd_succ in Hodd.
  rewrite !parse_sections_fold by exact Hodd. reflexivity.
Qed.

Lemma preamble_is_ignored_witness :
  parse_answer (L "Sure, here is the analysis of the *lease*.
" ++ L "**1. Summary:** One year.")
  = parse_answer (L "**1. Summary:** One year.").
Proof. apply preamble_is_ignored. reflexivity. Defined.

(** * Further properties of the score *)

Module ScoreFacts.
Import Risk.

(** Whitespace around a text does not change what [strip] gives. *)
Lemma strip_with_around p pre t post :
  forallb p pre = true -> forallb p post = true ->
  strip_with p (pre ++ t ++ post) = strip_with p t.
Proof.
  intros Hpre Hpost. unfold strip_with.
  rewrite lstrip_with_app_all by assumption.
  destruct (lstrip_decomp p t) as (pre' & E & Hpre').
  rewrite E at 1. rewrite <- app_assoc.
  rewrite lstrip_with_app_all by assumption.
  assert (Hclean := lstrip_starts_clean p t).
  destruct (lstrip_with p t) as [|c u].
  - cbn [app]. rewrite lstrip_with_all by assumption. reflexivity.
  - rewrite lstrip_with_clean by exact Hclean.
    apply rstrip_with_app_all. assumption.
Qed.

Lemma digits_value_run ds : forall after value count rest,
  forallb isdecimal ds = true -> ds <> [] \/ after = true ->
  digits_value after value count (ds ++ rest)
  = digits_value true
      (fold_left (fun v c => (10 * v + digit c)%Z) ds value)
      (count + length ds) rest.
Proof.
  induction ds as [|c ds IH]; intros after value count rest Hd Hne.
  - destruct Hne as [Hne | ->]; [contradiction|].
    rewrite Nat.add_0_r. reflexivity.
  - simpl in Hd. apply andb_true_iff in Hd. destruct Hd as [Hc Hd].
    cbn [app digits_value fold_left length]. rewrite Hc.
    rewrite IH by auto. f_equal. lia.
Qed.

Lemma limit_off (m n : nat) :
  m = 0 \/ n <= m -> (Nat.ltb 0 m && Nat.ltb m n)%bool = false.
Proof.
  intros [-> | H]; [reflexivity|]. apply andb_false_iff. right.
  apply Nat.ltb_ge. exact H.
Qed.

Lemma starts_clean_digit ds rest :
  ds <> [] -> forallb isdecimal ds = true ->
  starts_clean isspace (ds ++ rest) = true.
Proof.
  destruct ds as [|c ds]; [contradiction|]. intros _ H. simpl in H.
  apply andb_true_iff in H. destruct H as [Hc _]. cbn.
  rewrite (decimal_not_space _ Hc). reflexivity.
Qed.

Lemma trimmed_ends_digit front ds :
  starts_clean isspace (front ++ ds) = true ->
  ds <> [] -> forallb isdecimal ds = true ->
  trimmed isspace (front ++ ds) = true.
Proof.
  intros Hfront Hne Hd. unfold trimmed. rewrite Hfront.
  rewrite rev_app_distr. apply starts_clean_digit.
  - intros E. apply Hne. apply (f_equal (@rev ascii)) in E.
    rewrite rev_involutive in E. exact E.
  - rewrite forallb_rev. exact Hd.
Qed.

Lemma risk_of_text_trimmed m t :
  trimmed isspace t = true ->
  risk_of_text m t
  = match int m t with Some n => n | None => 50%Z end.
Proof.
  intros H. unfold risk_of_text, strip. rewrite strip_with_id by exact H.
  reflexivity.
Qed.

Lemma int_trimmed m t :
  trimmed isspace t = true ->
  int m t
  = (let '(negative, body) :=
       match t with
       | c :: t' =>
           if Ascii.eqb c "-" then (true, t')
           else if Ascii.eqb c "+" then (false, t')
           else (false, t)
       | [] => (false, [])
       end in
     match digits_value false 0 0 body with
     | Some (value, count) =>
         if (Nat.ltb 0 m && Nat.ltb m count)%bool then None
         else Some (if negative then - value else value)%Z
     | None => None
     end).
Proof.
  intros H. unfold int, strip. rewrite strip_with_id by exact H.
  reflexivity.
Qed.

Lemma int_minus m body :
  trimmed isspace ("-"%char :: body) = true ->
  int m ("-"%char :: body) = read m true body.
Proof. intros H. rewrite int_trimmed by exact H. reflexivity. Qed.

Lemma int_plus m body :
  trimmed isspace ("+"%char :: body) = true ->
  int m ("+"%char :: body) = read m false body.
Proof. intros H. rewrite int_trimmed by exact H. reflexivity. Qed.

Lemma int_unsigned m c body :
  trimmed isspace (c :: body) = true -> isdecimal c = true ->
  int m (c :: body) = read m false (c :: body).
Proof.
  intros H Hc. rewrite int_trimmed by exact H.
  destruct (decimal_not_sign _ Hc) as [-> ->]. reflexivity.
Qed.

Lemma read_digits m negative ds :
  ds <> [] -> forallb isdecimal ds = true -> m = 0 \/ length ds <= m ->
  read m negative ds
  = Some (if negative then - decimal ds else decimal ds)%Z.
Proof.
  intros Hne Hd Hm. unfold read. rewrite digits_value_digits by auto.
  rewrite limit_off by (simpl; lia). reflexivity.
Qed.

End ScoreFacts.
Import ScoreFacts.

(** X6: whitespace around the reply of the model never changes the
    score: the score of a text between two runs of whitespace is the
    score of the text. *)
Theorem score_ignores_outer_whitespace (max_str_digits : nat)
    (before risk_text after : str) :
  forallb isspace before = true -> forallb isspace after = true ->
  Risk.risk_of_text max_str_digits (before ++ risk_text ++ after)
  = Risk.risk_of_text max_str_digits risk_text.
Proof.
  intros Hb Ha. unfold Risk.risk_of_text, strip.
  rewrite strip_with_around by assumption. reflexivity.
Qed.

Lemma score_ignores_outer_whitespace_witness :
  Risk.risk_of_text 4300 (L "
  " ++ L "about 40" ++ L " 
") = Risk.risk_of_text 4300 (L "about 40").
Proof. apply score_ignores_outer_whitespace; reflexivity. Defined.

(** X7: the score takes the whole syntax of [int]: a minus sign gives
    the negated number, a plus sign the number, and digits with one
    underscore between them the number of the digits put together. *)
Theorem score_signs_and_underscore (max_str_digits : nat)
    (digits more : str) :
  digits <> [] -> forallb isdecimal digits = true ->
  more <> [] -> forallb isdecimal more = true ->
  max_str_digits = 0 \/ length digits + length more <= max_str_digits ->
  Risk.risk_of_text max_str_digits ("-"%char :: digits)
  = (- decimal digits)%Z /\
  Risk.risk_of_text max_str_digits ("+"%char :: digits) = decimal digits /\
  Risk.risk_of_text max_str_digits (digits ++ "_"%char :: more)
  = decimal (digits ++ more).
Proof.
  intros Hne Hd Hne' Hd' Hm.
  split; [|split].
  - rewrite risk_of_text_trimmed
      by (apply (trimmed_ends_digit ["-"%char]); auto).
    rewrite int_minus by (apply (trimmed_ends_digit ["-"%char]); auto).
    rewrite read_digits by (auto; lia). reflexivity.
  - rewrite risk_of_text_trimmed
      by (apply (trimmed_ends_digit ["+"%char]); auto).
    rewrite int_plus by (apply (trimmed_ends_digit ["+"%char]); auto).
    rewrite read_digits by (auto; lia). reflexivity.
  - assert (Ht : trimmed isspace (digits ++ "_"%char :: more) = true).
    { replace (digits ++ "_"%char :: more)
        with ((digits ++ ["_"%char]) ++ more)
        by (rewrite <- app_assoc; reflexivity).
      apply trimmed_ends_digit; auto. rewrite <- app_assoc.
      apply starts_clean_digit; assumption. }
    rewrite risk_of_text_trimmed by exact Ht.
    destruct digits as [|c ds]; [contradiction|].
    assert (Hc : isdecimal c = true).
    { simpl in Hd. apply andb_true_iff in Hd. tauto. }
    cbn [app] in *. rewrite int_unsigned by assumption.
    unfold read.
    change (c :: ds ++ "_"%char :: more)
      with ((c :: ds) ++ "_"%char :: more).
    rewrite digits_value_run by auto.
    change (Risk.digits_value true
              (fold_left (fun v c0 => (10 * v + Risk.digit c0)%Z) (c :: ds) 0%Z)
              (0 + length (c :: ds)) ("_"%char :: more))
      with (Risk.digits_value false
              (fold_left (fun v c0 => (10 * v + Risk.digit c0)%Z) (c :: ds) 0%Z)
              (0 + length (c :: ds)) more).
    rewrite digits_value_digits by auto.
    rewrite limit_off by (cbn [length] in *; lia).
    unfold decimal. change (c :: ds ++ more) with ((c :: ds) ++ more).
    rewrite fold_left_app. reflexivity.
Qed.

Lemma score_signs_and_underscore_witness :
  Risk.risk_of_text 4300 (L "-5") = (-5)%Z /\
  Risk.risk_of_text 4300 (L "+5") = 5%Z /\
  Risk.risk_of_text 4300 (L "5_0") = 50%Z.
Proof.
  apply (score_signs_and_underscore 4300 (L "5") (L "0"));
    try reflexivity; try discriminate. right. simpl. lia.
Defined.

(** * Properties of the requests and of the endpoints *)

Module ReplyFacts.

Lemma first_text_well_formed r text :
  well_formed r text -> first_text (Ok r) = Ok text.
Proof.
  intros (Hstatus & top & candidate & candidates & content & part & parts
          & Hbody & Hc & Hct & Hp & Ht).
  unfold first_text. cbn [bind]. unfold raise_for_status.
  replace ((400 <=? status_code r)%Z && (status_code r <? 600)%Z)
    with false.
  - cbn [bind]. unfold response_json. rewrite Hbody. cbn [bind getitem].
    rewrite Hc. cbn [bind getitem0 getitem]. rewrite Hct.
    cbn [bind getitem]. rewrite Hp. cbn [bind getitem0 getitem].
    rewrite Ht. reflexivity.
  - symmetry. apply andb_false_iff.
    destruct Hstatus as [H | H];
      [left; apply Z.leb_gt | right; apply Z.ltb_ge]; lia.
Qed.

Lemma getitem_Ok v key x :
  getitem v key = Ok x ->
  exists items, v = JDict items /\ lookup key items = Some x.
Proof.
  destruct v; try discriminate. cbn [getitem].
  destruct (lookup key items) eqn:E; [|discriminate].
  intros H. injection H as ->. eauto.
Qed.

Lemma getitem0_dict v items :
  getitem0 v = Ok (JDict items) -> exists rest, v = JList (JDict items :: rest).
Proof.
  destruct v as [| | | [|c s] | [|x rest] |]; try discriminate;
    cbn [getitem0]; intros H; injection H as ->. eauto.
Qed.

Lemma first_text_Ok post text :
  first_text post = Ok text -> exists r, post = Ok r /\ well_formed r text.
Proof.
  unfold first_text. destruct post as [r|e]; [|discriminate].
  cbn [bind]. unfold raise_for_status.
  destruct ((400 <=? status_code r)%Z && (status_code r <? 600)%Z) eqn:Hs;
    [discriminate|].
  cbn [bind]. unfold response_json.
  destruct (json_body r) as [top|] eqn:Hbody; [|discriminate].
  cbn [bind].
  destruct (getitem top (L "candidates")) as [cs|] eqn:E1; [|discriminate].
  cbn [bind].
  destruct (getitem0 cs) as [c|] eqn:E2; [|discriminate]. cbn [bind].
  destruct (getitem c (L "content")) as [ct|] eqn:E3; [|discriminate].
  cbn [bind].
  destruct (getitem ct (L "parts")) as [ps|] eqn:E4; [|discriminate].
  cbn [bind].
  destruct (getitem0 ps) as [pt|] eqn:E5; [|discriminate]. cbn [bind].
  intros E6.
  destruct (getitem_Ok _ _ _ E1) as (top' & -> & H1).
  destruct (getitem_Ok _ _ _ E3) as (c' & -> & H3).
  destruct (getitem_Ok _ _ _ E4) as (ct' & -> & H4).
  destruct (getitem_Ok _ _ _ E6) as (pt' & -> & H6).
  destruct (getitem0_dict _ _ E2) as (cs' & ->).
  destruct (getitem0_dict _ _ E5) as (ps' & ->).
  exists r. split; [reflexivity|]. split.
  - apply andb_false_iff in Hs.
    destruct Hs as [H | H];
      [left; apply Z.leb_gt in H | right; apply Z.ltb_ge in H]; lia.
  - exists top', c', cs', ct', pt', ps'. auto.
Qed.

Lemma answer_str_Ok v s : answer_str v = Ok s -> v = JString s.
Proof. destruct v; try discriminate. intros H. injection H as ->. reflexivity. Qed.

(** What [gemini_explain] returns once the analysis has an answer. *)
Lemma gemini_explain_answer m text answer risk_call :
  exists d,
    parse_answer answer = Ok d /\
    gemini_explain m text (Ok answer) risk_call
    = Ok (document_of d (Risk.risk_of_call m risk_call) text).
Proof.
  destruct (parse_answer_Ok answer) as (d & Hd). exists d.
  split; [exact Hd|]. unfold gemini_explain. cbn [bind]. rewrite Hd.
  reflexivity.
Qed.

End ReplyFacts.
Import ReplyFacts.

(** X8: the text of the reply is found exactly in a response without an
    error status whose body is a dict with a list of candidates, the
    first a dict whose content is a dict with a list of parts, the first
    a dict with the key [text]; every other response, and every failure
    of the request, raises. *)
Theorem first_text_exactly_when_well_formed
    (post : result response) (text : json) :
  first_text post = Ok text <->
  exists r, post = Ok r /\ well_formed r text.
Proof.
  split.
  - apply first_text_Ok.
  - intros (r & -> & H). apply first_text_well_formed. exact H.
Qed.

(** X9: the extraction raises nothing but its own three errors: an
    exception of a reader never leaves [extract_text_from_file] as it
    is. *)
Theorem extraction_raises_its_own_errors
    (decode_ignore : Extract.bytes -> str)
    (docx_paragraphs : Extract.bytes -> result (list str))
    (pdf_pages : Extract.bytes -> result (list (option str)))
    (content : Extract.bytes) (filename : str) (e : exn) :
  Extract.extract_text_from_file decode_ignore docx_paragraphs pdf_pages
    content filename = Raise e ->
  (e = Extract.unsupported_format filename /\
   endswith filename (L ".txt") = false /\
   endswith filename (L ".docx") = false /\
   endswith filename (L ".pdf") = false) \/
  (e = Extract.docx_error /\ endswith filename (L ".docx") = true /\
   exists e', docx_paragraphs content = Raise e') \/
  (e = Extract.pdf_error /\ endswith filename (L ".pdf") = true /\
   exists e', pdf_pages content = Raise e').
Proof.
  unfold Extract.extract_text_from_file, Extract.extract_text_from_docx,
    Extract.extract_text_from_pdf.
  destruct (endswith filename (L ".txt")); [discriminate|].
  destruct (endswith filename (L ".docx")).
  - destruct (docx_paragraphs content) as [ps|e'] eqn:E; [discriminate|].
    intros H. injection H as <-. right. left. eauto.
  - destruct (endswith filename (L ".pdf")).
    + destruct (pdf_pages content) as [ps|e'] eqn:E; [discriminate|].
      intros H. injection H as <-. right. right. eauto.
    + intros H. injection H as <-. left. auto.
Qed.

Lemma extraction_raises_its_own_errors_witness :
  (Extract.docx_error = Extract.unsupported_format (L "lease.docx") /\
   endswith (L "lease.docx") (L ".txt") = false /\
   endswith (L "lease.docx") (L ".docx") = false /\
   endswith (L "lease.docx") (L ".pdf") = false) \/
  (Extract.docx_error = Extract.docx_error /\
   endswith (L "lease.docx") (L ".docx") = true /\
   exists e', Raise (LibraryError "BadZipFile") = @Raise (list str) e') \/
  (Extract.docx_error = Extract.pdf_error /\
   endswith (L "lease.docx") (L ".pdf") = true /\
   exists e', Ok [] = @Raise (list (option str)) e').
Proof.
  apply (extraction_raises_its_own_errors (fun _ => [])
           (fun _ => Raise (LibraryError "BadZipFile")) (fun _ => Ok [])
           [Byte.x50] (L "lease.docx") Extract.docx_error).
  reflexivity.
Defined.

Section EndpointFacts.
Variable decode_ignore : Extract.bytes -> str.
Variable docx_paragraphs : Extract.bytes -> result (list str).
Variable pdf_pages : Extract.bytes -> result (list (option str)).
Variable max_str_digits : nat.
Variable describe : exn -> list N.

Local Abbreviation extract :=
  (Extract.extract_text_from_file decode_ignore docx_paragraphs pdf_pages).
Local Abbreviation analyze :=
  (analyze_document decode_ignore docx_paragraphs pdf_pages max_str_digits
     describe).

Lemma analyze_200 content filename main_post risk_post document :
  analyze content filename main_post risk_post = Reply200 document <->
  exists text r answer d,
    extract content filename = Ok text /\
    main_post = Ok r /\ well_formed r (JString answer) /\
    parse_answer answer = Ok d /\
    document
    = document_of d
        (Risk.risk_of_call max_str_digits
           (risk_text <- first_text risk_post ;; risk_str risk_text))
        text.
Proof.
  unfold analyze_document, gemini_explain_requests. split.
  - destruct (extract content filename) as [text|e]; [|discriminate].
    cbn [bind].
    destruct (first_text main_post) as [v|e] eqn:E.
    + cbn [bind]. destruct (answer_str v) as [answer|e] eqn:Ea.
      * apply answer_str_Ok in Ea. subst v.
        destruct (first_text_Ok _ _ E) as (r & -> & Hr).
        destruct (gemini_explain_answer max_str_digits text answer
                    (risk_text <- first_text risk_post ;;
                     risk_str risk_text)) as (d & Hd & ->).
        intros H. injection H as <-.
        exists text, r, answer, d. auto.
      * unfold gemini_explain. cbn [bind]. discriminate.
    + unfold gemini_explain. cbn [bind]. discriminate.
  - intros (text & r & answer & d & -> & -> & Hr & Hd & ->).
    cbn [bind]. rewrite (first_text_well_formed _ _ Hr).
    cbn [bind answer_str].
    destruct (gemini_explain_answer max_str_digits text answer
                (risk_text <- first_text risk_post ;;
                 risk_str risk_text)) as (d' & Hd' & ->).
    rewrite Hd in Hd'. injection Hd' as <-. reflexivity.
Qed.

(** X10: [analyze_document] answers 200 exactly when the text of the
    file is extracted and the reply to the analysis is well formed with
    a string for text; the document then holds the output of the parser
    on that string, the score of the second request and the text of the
    file.  Every other case is a 400. *)
Theorem analyze_document_200 (content : Extract.bytes) (filename : str)
    (main_post risk_post : result response) :
  (forall document,
      analyze content filename main_post risk_post = Reply200 document <->
      exists text r answer d,
        extract content filename = Ok text /\
        main_post = Ok r /\ well_formed r (JString answer) /\
        parse_answer answer = Ok d /\
        document
        = document_of d
            (Risk.risk_of_call max_str_digits
               (risk_text <- first_text risk_post ;; risk_str risk_text))
            text) /\
  (forall status detail,
      analyze content filename main_post risk_post
      = ReplyError status detail -> status = 400%Z).
Proof.
  split.
  - intros document. apply analyze_200.
  - intros status detail. unfold analyze_document.
    destruct (text <- extract content filename ;; _); [discriminate|].
    intros H. injection H as <- _. reflexivity.
Qed.

(** X11: the request for the score cannot fail the analysis: whatever
    it gives, the status is the same and so is the document but for the
    risk field, which is 50 when the request raises, when the reply is
    not well formed or when its text is not a string. *)
Theorem score_request_only_sets_risk (content : Extract.bytes)
    (filename : str) (main_post risk_post risk_post' : result response)
    (document : DocumentResponse.t) :
  analyze content filename main_post risk_post = Reply200 document ->
  exists document',
    analyze content filename main_post risk_post' = Reply200 document' /\
    DocumentResponse.explanation document'
    = DocumentResponse.explanation document /\
    DocumentResponse.summary document' = DocumentResponse.summary document /\
    DocumentResponse.key_points document'
    = DocumentResponse.key_points document /\
    DocumentResponse.risks document' = DocumentResponse.risks document /\
    DocumentResponse.recommendations document'
    = DocumentResponse.recommendations document /\
    DocumentResponse.full_text document'
    = DocumentResponse.full_text document /\
    ((forall v, first_text risk_post' <> Ok (JString v)) ->
     DocumentResponse.risk document' = Some 50%Z).
Proof.
  intros H. apply analyze_200 in H.
  destruct H as (text & r & answer & d & Ht & Hm & Hr & Hd & ->).
  eexists. split.
  - apply analyze_200. exists text, r, answer, d. auto.
  - repeat split. intros Hbad. cbn [document_of DocumentResponse.risk].
    f_equal. destruct (first_text risk_post') as [v|e]; [|reflexivity].
    cbn [bind]. destruct v; try reflexivity. exfalso.
    apply (Hbad s). reflexivity.
Qed.

Lemma extraction_errors content filename e :
  extract content filename = Raise e ->
  e = Extract.unsupported_format filename \/
  (e = Extract.docx_error \/ e = Extract.pdf_error) /\
  (endswith filename (L ".docx") = true \/
   endswith filename (L ".pdf") = true).
Proof.
  unfold Extract.extract_text_from_file, Extract.extract_text_from_docx,
    Extract.extract_text_from_pdf.
  destruct (endswith filename (L ".txt")); [discriminate|].
  destruct (endswith filename (L ".docx")).
  - destruct (docx_paragraphs content); [discriminate|].
    intros H. injection H as <-. right.
    split; left; reflexivity.
  - destruct (endswith filename (L ".pdf")).
    + destruct (pdf_pages content); [discriminate|].
      intros H. injection H as <-. right.
      split; right; reflexivity.
    + intros H. injection H as <-. left. reflexivity.
Qed.

Lemma unsupported_reply content filename main_post risk_post :
  endswith filename (L ".txt") = false ->
  endswith filename (L ".docx") = false ->
  endswith filename (L ".pdf") = false ->
  analyze content filename main_post risk_post
  = ReplyError 400
      (utf8 "Неподдерживаемый формат файла: " ++ map code filename).
Proof.
  intros H1 H2 H3. unfold analyze_document, Extract.extract_text_from_file.
  rewrite H1, H2, H3. reflexivity.
Qed.

(** X12: a failure of the extraction is a 400 whose detail is the
    message of the error, whatever the requests would give; the read
    error of a [.docx] or [.pdf] file and the error of an unrecognized
    suffix have the same status and differ by their detail. *)
Theorem extraction_failure_is_400 (content : Extract.bytes)
    (filename : str) (e : exn) (main_post risk_post : result response) :
  extract content filename = Raise e ->
  exists message,
    e = ValueError message /\
    analyze content filename main_post risk_post = ReplyError 400 message /\
    (endswith filename (L ".docx") = true \/
     endswith filename (L ".pdf") = true ->
     forall content' filename' main_post' risk_post',
       endswith filename' (L ".txt") = false ->
       endswith filename' (L ".docx") = false ->
       endswith filename' (L ".pdf") = false ->
       analyze content' filename' main_post' risk_post'
       <> ReplyError 400 message).
Proof.
  intros He.
  assert (Hreply : forall message, e = ValueError message ->
            analyze content filename main_post risk_post
            = ReplyError 400 message).
  { intros message ->. unfold analyze_document. rewrite He. reflexivity. }
  destruct (extraction_errors _ _ _ He) as [-> | [[-> | ->] Hsuffix]].
  - eexists. split; [reflexivity|]. split; [apply Hreply; reflexivity|].
    intros Hs. exfalso. revert He.
    unfold Extract.extract_text_from_file, Extract.extract_text_from_docx,
      Extract.extract_text_from_pdf.
    destruct (endswith filename (L ".txt")); [discriminate|].
    destruct (endswith filename (L ".docx")) eqn:E2.
    + destruct (docx_paragraphs content); [discriminate|].
      intros H. injection H as H.
      apply (ExtractFacts.docx_error_not_unsupported filename).
      unfold Extract.docx_error, Extract.unsupported_format. congruence.
    + destruct (endswith filename (L ".pdf")) eqn:E3.
      * destruct (pdf_pages content); [discriminate|].
        intros H. injection H as H.
        apply (ExtractFacts.pdf_error_not_unsupported filename).
        unfold Extract.pdf_error, Extract.unsupported_format. congruence.
      * destruct Hs; discriminate.
  - eexists. split; [reflexivity|]. split; [apply Hreply; reflexivity|].
    intros _ content' filename' main_post' risk_post' H1 H2 H3.
    rewrite (unsupported_reply _ _ _ _ H1 H2 H3). intros E.
    apply (ExtractFacts.docx_error_not_unsupported filename').
    unfold Extract.docx_error, Extract.unsupported_format. congruence.
  - eexists. split; [reflexivity|]. split; [apply Hreply; reflexivity|].
    intros _ content' filename' main_post' risk_post' H1 H2 H3.
    rewrite (unsupported_reply _ _ _ _ H1 H2 H3). intros E.
    apply (ExtractFacts.pdf_error_not_unsupported filename').
    unfold Extract.pdf_error, Extract.unsupported_format. congruence.
Qed.

(** X13: [chat_with_ai] answers 200 exactly when the reply is well
    formed, with the text as it came, and 500 otherwise; a failure of
    the request that is a 500 for the chat is a 400 with the same detail
    for the analysis of a file whose text is extracted. *)
Theorem chat_with_ai_passes_text (question document : str)
    (post : result response) :
  (forall answer,
      chat_with_ai describe question document post = Reply200 answer <->
      exists r, post = Ok r /\ well_formed r answer) /\
  (forall e,
      first_text post = Raise e ->
      chat_with_ai describe question document post
      = ReplyError 500 (str_of describe e) /\
      forall content filename text risk_post,
        extract content filename = Ok text ->
        analyze content filename post risk_post
        = ReplyError 400 (str_of describe e)).
Proof.
  unfold chat_with_ai. split.
  - intros answer. split.
    + destruct (first_text post) as [v|e] eqn:E; [|discriminate].
      intros H. injection H as ->. apply first_text_Ok. exact E.
    + intros (r & -> & H). rewrite (first_text_well_formed _ _ H).
      reflexivity.
  - intros e He. rewrite He. split; [reflexivity|].
    intros content filename text risk_post Ht.
    unfold analyze_document, gemini_explain_requests. rewrite Ht.
    cbn [bind]. rewrite He. reflexivity.
Qed.

End EndpointFacts.

Lemma score_request_only_sets_risk_witness :
  exists document',
    analyze_document (fun _ => L "Lease of a flat.") (fun _ => Ok [])
      (fun _ => Ok []) 4300 (fun _ => []) [] (L "lease.txt")
      (Ok {| status_code := 200;
             json_body := Some (JDict [(L "candidates",
               JList [JDict [(L "content",
                 JDict [(L "parts",
                   JList [JDict [(L "text",
                     JString (L "**1. Summary:** fine"))]])])]])]) |})
      (Ok {| status_code := 503; json_body := None |})
    = Reply200 document' /\
    DocumentResponse.summary document' = L "fine" /\
    DocumentResponse.risk document' = Some 50%Z.
Proof.
  destruct (score_request_only_sets_risk (fun _ => L "Lease of a flat.")
              (fun _ => Ok []) (fun _ => Ok []) 4300 (fun _ => [])
              [] (L "lease.txt")
              (Ok {| status_code := 200;
                     json_body := Some (JDict [(L "candidates",
                       JList [JDict [(L "content",
                         JDict [(L "parts",
                           JList [JDict [(L "text",
                             JString (L "**1. Summary:** fine"))]])])]])]) |})
              (Ok {| status_code := 200;
                     json_body := Some (JDict [(L "candidates",
                       JList [JDict [(L "content",
                         JDict [(L "parts",
                           JList [JDict [(L "text",
                             JString (L "70"))]])])]])]) |})
              (Ok {| status_code := 503; json_body := None |})
              _ eq_refl)
    as (document' & H & _ & Hs & _ & _ & _ & _ & Hrisk).
  exists document'. split; [exact H|]. split; [exact Hs|].
  apply Hrisk. intros v E. discriminate.
Defined.

Lemma extraction_failure_is_400_witness :
  exists message,
    Extract.pdf_error = ValueError message /\
    analyze_document (fun _ => []) (fun _ => Ok [])
      (fun _ => Raise (LibraryError "PdfReadError")) 4300 (fun _ => [])
      [Byte.x25] (L "scan.pdf") (Raise (LibraryError "Timeout"))
      (Raise (LibraryError "Timeout"))
    = ReplyError 400 message.
Proof.
  destruct (extraction_failure_is_400 (fun _ => []) (fun _ => Ok [])
              (fun _ => Raise (LibraryError "PdfReadError")) 4300
              (fun _ => []) [Byte.x25] (L "scan.pdf") Extract.pdf_error
              (Raise (LibraryError "Timeout"))
              (Raise (LibraryError "Timeout")) eq_refl)
    as (message & E & H & _).
  exists message. split; [exact E|exact H].
Defined.

(** * Properties of the registration *)

Module RegisterFacts.
Import Register.

(** Every run of [register_user], by the answers of the session and of
    the password context. *)
Ltac runs w :=
  unfold register_user;
  destruct (first w) as [[?|]|?];
  [ | destruct (hash w) as [?|?];
      [ destruct (add w) as [[]|?];
        [ destruct (commit w) as [[]|?];
          [ destruct (refresh w) as [[]|?] | ] | ] | ] | ];
  destruct (rollback w) as [[]|?];
  destruct (close w) as [[]|?];
  cbv [try_finally try_except then_ call ret fst snd app].

End RegisterFacts.

(** X14: every run of [register_user] closes the session, once and as
    its last step, whatever raised before, the rollback included; and
    when the close itself raises, its exception is what leaves the
    function, also after a successful commit. *)
Theorem register_user_closes_session (describe : exn -> list N)
    (data : RegisterRequest.t) (w : Register.world) :
  (exists events,
      snd (Register.register_user describe data w)
      = events ++ [Register.Close] /\
      ~ In Register.Close events) /\
  (forall e,
      Register.close w = Raise e ->
      fst (Register.register_user describe data w) = Register.Exception e).
Proof.
  split.
  - RegisterFacts.runs w;
      match goal with
      | |- exists events, ?l = _ /\ _ =>
          exists (removelast l); cbn [removelast app]
      end;
      (split; [reflexivity | cbn [In]; intuition discriminate]).
  - RegisterFacts.runs w; intros x E; try discriminate;
      injection E as <-; reflexivity.
Qed.

(** X15: when the rollback and the close do not raise, the function
    leaves with an [HTTPException] of status 500 exactly when it has
    rolled back, and with no other exception; a rollback is never
    followed by a success. *)
Theorem register_user_rollback (describe : exn -> list N)
    (data : RegisterRequest.t) (w : Register.world) :
  Register.rollback w = Ok tt -> Register.close w = Ok tt ->
  (In Register.Rollback (snd (Register.register_user describe data w)) <->
   exists detail,
     fst (Register.register_user describe data w)
     = Register.HTTPException 500 detail) /\
  (forall e,
      fst (Register.register_user describe data w)
      <> Register.Exception e).
Proof.
  RegisterFacts.runs w; intros E6 E7; try discriminate;
    (split;
     [ split;
       [ cbn [In]; intros Hin;
         first [ eexists; reflexivity | exfalso; intuition discriminate ]
       | intros (detail & E);
         first [ discriminate E | cbn [In]; auto 10 ] ]
     | intros x E; discriminate E ]).
Qed.

Lemma register_user_rollback_witness :
  In Register.Rollback
    (snd (Register.register_user (fun _ => [])
            {| RegisterRequest.full_name := L "A. Karimov";
               RegisterRequest.phone := L "+998901234567";
               RegisterRequest.email := L "a@example.org";
               RegisterRequest.password := L "secret" |}
            {| Register.first := Ok None;
               Register.hash := Ok (L "$argon2id$x");
               Register.add := Ok tt;
               Register.commit := Raise (LibraryError "IntegrityError");
               Register.refresh := Ok tt;
               Register.rollback := Ok tt;
               Register.close := Ok tt |})) <->
  exists detail,
    fst (Register.register_user (fun _ => [])
           {| RegisterRequest.full_name := L "A. Karimov";
              RegisterRequest.phone := L "+998901234567";
              RegisterRequest.email := L "a@example.org";
              RegisterRequest.password := L "secret" |}
           {| Register.first := Ok None;
              Register.hash := Ok (L "$argon2id$x");
              Register.add := Ok tt;
              Register.commit := Raise (LibraryError "IntegrityError");
              Register.refresh := Ok tt;
              Register.rollback := Ok tt;
              Register.close := Ok tt |})
    = Register.HTTPException 500 detail.
Proof.
  apply (register_user_rollback (fun _ => [])); reflexivity.
Defined.

(** X16: when the query finds a user with the email or the phone,
    nothing is done but the query and the close: no hash, no row added,
    no commit, no rollback; and the function leaves with the
    [HTTPException] of status 400, unless the close raises. *)
Theorem register_user_duplicate (describe : exn -> list N)
    (data : RegisterRequest.t) (w : Register.world) (existing : User.t) :
  Register.first w = Ok (Some existing) ->
  snd (Register.register_user describe data w)
  = [Register.Query (RegisterRequest.email data) (RegisterRequest.phone data);
     Register.Close] /\
  fst (Register.register_user describe data w)
  = match Register.close w with
    | Ok _ => Register.HTTPException 400 Register.duplicate_detail
    | Raise e => Register.Exception e
    end.
Proof.
  RegisterFacts.runs w; intros E; try discriminate E; split; reflexivity.
Qed.

Lemma register_user_duplicate_witness :
  snd (Register.register_user (fun _ => [])
         {| RegisterRequest.full_name := L "A. Karimov";
            RegisterRequest.phone := L "+998901234567";
            RegisterRequest.email := L "a@example.org";
            RegisterRequest.password := L "secret" |}
         {| Register.first :=
              Ok (Some {| User.full_name := L "B. Karimov";
                          User.phone := L "+998901234567";
                          User.email := L "b@example.org";
                          User.hashed_password := L "$argon2id$" |});
            Register.hash := Ok (L "$argon2id$x");
            Register.add := Ok tt;
            Register.commit := Ok tt;
            Register.refresh := Ok tt;
            Register.rollback := Ok tt;
            Register.close := Ok tt |})
  = [Register.Query (L "a@example.org") (L "+998901234567");
     Register.Close].
Proof.
  refine (proj1 (register_user_duplicate (fun _ => []) _ _
                   {| User.full_name := L "B. Karimov";
                      User.phone := L "+998901234567";
                      User.email := L "b@example.org";
                      User.hashed_password := L "$argon2id$" |} _)).
  reflexivity.
Defined.

(** X17: the function returns its message exactly when the query finds
    nobody and the hash, the add, the commit, the refresh and the close
    all succeed; and in every run a row that is added takes its name,
    phone and email from the request and has for password the hash that
    the password context gave, never the password of the request as
    such. *)
Theorem register_user_success (describe : exn -> list N)
    (data : RegisterRequest.t) (w : Register.world) :
  (forall message,
      fst (Register.register_user describe data w) = Register.Value message
      <->
      message = Register.success_message /\
      Register.first w = Ok None /\
      (exists h, Register.hash w = Ok h) /\
      Register.add w = Ok tt /\ Register.commit w = Ok tt /\
      Register.refresh w = Ok tt /\ Register.close w = Ok tt) /\
  (forall user,
      In (Register.Add user)
         (snd (Register.register_user describe data w)) ->
      Register.hash w = Ok (User.hashed_password user) /\
      User.full_name user = RegisterRequest.full_name data /\
      User.phone user = RegisterRequest.phone data /\
      User.email user = RegisterRequest.email data).
Proof.
  RegisterFacts.runs w; generalize Register.success_message; intros done;
    (split;
     [ intros message; split;
       [ intros E; first [ discriminate E | injection E as E ];
         symmetry in E; eauto 10
       | intros (E0 & E1 & (h' & E2) & E3 & E4 & E5 & E7);
         first [ discriminate | rewrite E0; reflexivity ] ]
     | cbn [In]; intros user Hin;
       repeat (destruct Hin as [E | Hin]; try discriminate E);
       first [ contradiction | injection E as <-; auto ] ]).
Qed.

(** X18: an error does not tell that nothing was written: when the
    commit has succeeded and then the refresh or the close raises, the
    row has been added and committed, and the function does not return
    its message. *)
Theorem register_user_error_after_commit (describe : exn -> list N)
    (data : RegisterRequest.t) (w : Register.world) (h : str) :
  Register.first w = Ok None -> Register.hash w = Ok h ->
  Register.add w = Ok tt -> Register.commit w = Ok tt ->
  Register.refresh w <> Ok tt \/ Register.close w <> Ok tt ->
  (forall message,
      fst (Register.register_user describe data w)
      <> Register.Value message) /\
  exists before after,
    snd (Register.register_user describe data w)
    = before
      ++ [Register.Add
            {| User.full_name := RegisterRequest.full_name data;
               User.phone := RegisterRequest.phone data;
               User.email := RegisterRequest.email data;
               User.hashed_password := h |};
          Register.Commit]
      ++ after.
Proof.
  RegisterFacts.runs w; intros E1 E2 E3 E4 E5; try discriminate;
    injection E2 as ->;
    (split;
     [ intros message E;
       first [ discriminate E | destruct E5 as [E5 | E5]; now apply E5 ]
     | exists [Register.Query (RegisterRequest.email data)
                 (RegisterRequest.phone data);
               Register.Hash (RegisterRequest.password data)];
       cbn [app]; eexists; reflexivity ]).
Qed.

Lemma register_user_error_after_commit_witness :
  fst (Register.register_user (fun _ => utf8 "connection lost")
         {| RegisterRequest.full_name := L "A. Karimov";
            RegisterRequest.phone := L "+998901234567";
            RegisterRequest.email := L "a@example.org";
            RegisterRequest.password := L "secret" |}
         {| Register.first := Ok None;
            Register.hash := Ok (L "$argon2id$x");
            Register.add := Ok tt;
            Register.commit := Ok tt;
            Register.refresh := Raise (LibraryError "OperationalError");
            Register.rollback := Ok tt;
            Register.close := Ok tt |})
  <> Register.Value Register.success_message.
Proof.
  refine (proj1 (register_user_error_after_commit
                   (fun _ => utf8 "connection lost") _ _ (L "$argon2id$x")
                   _ _ _ _ _) Register.success_message);
    try reflexivity.
  left. discriminate.
Defined.
